(** * A shallow embedding of [src/socket.h]

    The header wraps the BSD socket calls.  Every method is a few lines of
    control flow around calls into the operating system, so the embedding
    keeps the operating system explicit: an [OS] is a record of oracles, one
    per call the header makes, and every call is appended to a trace together
    with the answer it got.  Methods become computations in a small monad
    that threads [errno] and the trace and that can abort (the header's
    fatal-error path) or run out of fuel (the loops take the number of turns
    they may make as an argument).

    The embedding follows the branch of the header that is compiled when
    [_WIN32] is not defined: [SOCKET] is [int], [sock_size_t] is [size_t] and
    [INVALID_SOCKET] is [-1].  Integer widths are those of an LP64 target. *)

From Stdlib Require Import ZArith List String Ascii Bool Lia.
From Stdlib.Strings Require Import Byte.
Import ListNotations.

Local Open Scope Z_scope.

(** ** Machine integers *)

Module MachInt.

Definition wrap_unsigned (w x : Z) : Z := x mod 2 ^ w.

Definition wrap_signed (w x : Z) : Z :=
  (x + 2 ^ (w - 1)) mod 2 ^ w - 2 ^ (w - 1).

(** [int], [size_t], [ssize_t] and [uint16_t]. *)
Definition to_int : Z -> Z := wrap_signed 32.
Definition to_size_t : Z -> Z := wrap_unsigned 64.
Definition to_ssize_t : Z -> Z := wrap_signed 64.
Definition to_uint16 : Z -> Z := wrap_unsigned 16.

Definition INT_MIN : Z := - 2 ^ 31.
Definition INT_MAX : Z := 2 ^ 31 - 1.
Definition SIZE_MAX : Z := 2 ^ 64 - 1.
Definition LONG_MAX : Z := 2 ^ 63 - 1.

Definition is_int (x : Z) : Prop := INT_MIN <= x <= INT_MAX.
Definition is_size_t (x : Z) : Prop := 0 <= x <= SIZE_MAX.

End MachInt.
Import MachInt.

(** ** What the system headers provide

    The constants and the two libc functions the header uses come from
    [<errno.h>], [<sys/socket.h>], [<netinet/in.h>] and [<string.h>]; they are
    not part of the repository and are taken as a parameter. *)

Record platform : Type := {
  EAGAIN : Z;
  EWOULDBLOCK : Z;
  EADDRINUSE : Z;
  AF_INET : Z;
  PF_INET : Z;
  SOCK_STREAM : Z;
  MSG_WAITALL : Z;
  (** byte order of the host, which decides what [htons] and [ntohs] do *)
  big_endian : bool;
  strerror : Z -> string
}.

(** [const int INVALID_SOCKET = -1;] *)
Definition INVALID_SOCKET : Z := -1.

(** ** Data exchanged with the operating system *)

Record hostent : Type := {
  h_addrtype : Z;
  h_length : Z;
  h_addr_list : list (list byte)
}.

(** [sockaddr_in]: [sin_port] holds the 16-bit value as the host reads it
    (the port in network byte order); [sin_addr] is the 4-byte address and
    [sin_zero] the 8 bytes of padding that follow it. *)
Record sockaddr_in : Type := {
  sin_family : Z;
  sin_port : Z;
  sin_addr : list byte;
  sin_zero : list byte
}.

Record timeval : Type := {
  tv_sec : Z;
  tv_usec : Z
}.

(** An [fd_set] is a bit array indexed by descriptor.  [FD_SET] and
    [FD_ISSET] of [<sys/select.h>] are defined for the descriptors from 0 to
    [FD_SETSIZE - 1] only, and the two definitions below are these macros on
    that range; what a statement says about the contents of a set is said
    under [fits_fd_set]. *)
Definition fd_set : Type := Z.
Definition FD_ZERO : fd_set := 0.
Definition FD_SET (fd : Z) (s : fd_set) : fd_set := Z.setbit s fd.
Definition FD_ISSET (fd : Z) (s : fd_set) : bool := Z.testbit s fd.

(** [FD_SETSIZE] of [<sys/select.h>]. *)
Definition FD_SETSIZE : Z := 1024.

Definition fits_fd_set (fd : Z) : Prop := 0 <= fd < FD_SETSIZE.

(** One entry per call into the operating system: the arguments, then the
    value returned and the value of [errno] after the call.  The entry of
    [gethostbyname] holds the host and the answer; the value of [errno]
    after it is in the world only. *)
Inductive event : Type :=
| EvGetHostByName (host : string) (hp : option hostent)
| EvSocket (domain type protocol : Z) (ret err : Z)
| EvBind (fd : Z) (addr : sockaddr_in) (ret err : Z)
| EvListen (fd backlog : Z) (ret err : Z)
| EvAccept (fd : Z) (ret err : Z)
| EvClose (fd : Z) (ret err : Z)
| EvSend (fd : Z) (off : Z) (n : Z) (data : list byte) (flags : Z) (ret err : Z)
| EvRecv (fd : Z) (off : Z) (n : Z) (flags : Z) (ret err : Z) (data : list byte)
| EvSelect (nfds : Z) (rd wr ex : fd_set) (tm : option timeval)
           (ret err : Z) (rd' wr' ex' : fd_set).

(** The part of the process state the header reads and writes besides its
    own objects. *)
Record world : Type := {
  errno : Z;
  trace : list event
}.

(** The operating system: each oracle sees the world so far (so its answer
    may depend on every earlier call) and the arguments of the call, and
    answers with the return value and the new [errno].  For [gethostbyname]
    the answer and the new [errno] are two fields. *)
Record OS : Type := {
  os_gethostbyname : world -> string -> option hostent;
  os_gethostbyname_errno : world -> string -> Z;
  os_socket : world -> Z -> Z -> Z -> Z * Z;
  os_bind : world -> Z -> sockaddr_in -> Z * Z;
  os_listen : world -> Z -> Z -> Z * Z;
  os_accept : world -> Z -> Z * Z;
  os_close : world -> Z -> Z * Z;
  os_send : world -> Z -> Z -> list byte -> Z -> Z * Z;
  os_recv : world -> Z -> Z -> Z -> Z * Z * list byte;
  os_select : world -> Z -> fd_set -> fd_set -> fd_set -> option timeval ->
              Z * Z * (fd_set * fd_set * fd_set)
}.

(** ** The monad of the embedding *)

Inductive result (A : Type) : Type :=
| Done (a : A)
| Abort (msg : string)
| OutOfFuel.
Arguments Done {A} a.
Arguments Abort {A} msg.
Arguments OutOfFuel {A}.

Definition M (A : Type) : Type := world -> result A * world.

Definition ret {A} (a : A) : M A := fun w => (Done a, w).

Definition bind {A B} (c : M A) (k : A -> M B) : M B :=
  fun w =>
    match c w with
    | (Done a, w') => k a w'
    | (Abort msg, w') => (Abort msg, w')
    | (OutOfFuel, w') => (OutOfFuel, w')
    end.

Definition out_of_fuel {A} : M A := fun w => (OutOfFuel, w).

Definition get_errno : M Z := fun w => (Done (errno w), w).

Declare Scope sock_scope.
Delimit Scope sock_scope with sock.
Notation "x <- c ;; k" := (bind c (fun x => k))
  (at level 61, c at next level, right associativity) : sock_scope.
Notation "c ;; k" := (bind c (fun _ => k))
  (at level 61, right associativity) : sock_scope.
Local Open Scope sock_scope.

(** Appending one event and setting [errno]. *)
Definition record (w : world) (e : Z) (ev : event) : world :=
  {| errno := e; trace := trace w ++ [ev] |}.

(** Modelled from the spec: [utils::Error], [utils::Check] and [utils::Assert]
    live in [./utils.h], which is not among the sources.  The specification
    says that an unexpected failure "aborts the call with a descriptive
    message": [utils_Error] aborts with the formatted message, and
    [utils_Check] does so when its condition is false. *)
Definition utils_Error (msg : string) : M unit := fun w => (Abort msg, w).

Definition utils_Check (cond : bool) (msg : string) : M unit :=
  if cond then ret tt else utils_Error msg.

(** ** Memory helpers *)

(** [memcpy dst src n]: the first [n] bytes of [dst] are replaced by the
    first [n] bytes of [src]. *)
Definition memcpy (dst src : list byte) (n : Z) : list byte :=
  firstn (Z.to_nat n) src ++ skipn (Z.to_nat n) dst.

(** Writing [data] into a buffer at offset [off]. *)
Definition write_at (buf : list byte) (off : Z) (data : list byte) : list byte :=
  firstn (Z.to_nat off) buf ++ memcpy (skipn (Z.to_nat off) buf) data
                                      (Z.of_nat (List.length data)).

(** The bytes a call may read from a pointer [off] bytes into [buf]. *)
Definition read_at (buf : list byte) (off n : Z) : list byte :=
  firstn (Z.to_nat n) (skipn (Z.to_nat off) buf).

Section Socket.

Variable P : platform.
Variable os : OS.

(** *** System calls *)

Definition sys_gethostbyname (host : string) : M (option hostent) :=
  fun w =>
    let hp := os_gethostbyname os w host in
    (Done hp, {| errno := os_gethostbyname_errno os w host;
                 trace := trace w ++ [EvGetHostByName host hp] |}).

Definition sys_socket (domain type protocol : Z) : M Z :=
  fun w =>
    let '(r, e) := os_socket os w domain type protocol in
    (Done r, record w e (EvSocket domain type protocol r e)).

Definition sys_bind (fd : Z) (addr : sockaddr_in) : M Z :=
  fun w =>
    let '(r, e) := os_bind os w fd addr in
    (Done r, record w e (EvBind fd addr r e)).

Definition sys_listen (fd backlog : Z) : M Z :=
  fun w =>
    let '(r, e) := os_listen os w fd backlog in
    (Done r, record w e (EvListen fd backlog r e)).

Definition sys_accept (fd : Z) : M Z :=
  fun w =>
    let '(r, e) := os_accept os w fd in
    (Done r, record w e (EvAccept fd r e)).

Definition sys_close (fd : Z) : M Z :=
  fun w =>
    let '(r, e) := os_close os w fd in
    (Done r, record w e (EvClose fd r e)).

(** [send(fd, base + off, n, flags)] where [base] is the caller's buffer. *)
Definition sys_send (fd : Z) (base : list byte) (off n flags : Z) : M Z :=
  fun w =>
    let data := read_at base off n in
    let '(r, e) := os_send os w fd n data flags in
    (Done r, record w e (EvSend fd off n data flags r e)).

(** [recv(fd, base + off, n, flags)]: the bytes received are stored in the
    caller's buffer, which is returned with the count. *)
Definition sys_recv (fd : Z) (base : list byte) (off n flags : Z)
  : M (Z * list byte) :=
  fun w =>
    let '(r, e, data) := os_recv os w fd n flags in
    let got := firstn (Z.to_nat r) data in
    (Done (r, write_at base off got), record w e (EvRecv fd off n flags r e got)).

Definition sys_select (nfds : Z) (rd wr ex : fd_set) (tm : option timeval)
  : M (Z * (fd_set * fd_set * fd_set)) :=
  fun w =>
    let '(r, e, (rd', wr', ex')) := os_select os w nfds rd wr ex tm in
    (Done (r, (rd', wr', ex')),
     record w e (EvSelect nfds rd wr ex tm r e rd' wr' ex')).

(** *** [htons] and [ntohs]

    The two functions of [<arpa/inet.h>]: on a little-endian host they swap
    the two bytes of a 16-bit value, on a big-endian host they return it
    unchanged.  The argument is converted to [uint16_t] first. *)

Definition bswap16 (x : Z) : Z :=
  Z.lor (Z.shiftl (Z.land x 255) 8) (Z.land (Z.shiftr x 8) 255).

Definition htons (x : Z) : Z :=
  let x := to_uint16 x in
  if big_endian P then x else bswap16 x.

Definition ntohs (x : Z) : Z :=
  let x := to_uint16 x in
  if big_endian P then x else bswap16 x.

(** *** [struct SockAddr] *)

Record SockAddr : Type := { addr : sockaddr_in }.

(** [memset(&addr, 0, sizeof(addr))] *)
Definition zeroed_sockaddr : sockaddr_in :=
  {| sin_family := 0; sin_port := 0;
     sin_addr := repeat x00 4; sin_zero := repeat x00 8 |}.

(** Dereferencing the pointer [gethostbyname] returned.  The header only does
    so after [Check(hp != NULL, ...)]; the record given for [NULL] is never
    looked at. *)
Definition deref (hp : option hostent) : hostent :=
  match hp with
  | Some h => h
  | None => {| h_addrtype := 0; h_length := 0; h_addr_list := [] |}
  end.

Definition not_null (hp : option hostent) : bool :=
  match hp with Some _ => true | None => false end.

(** The four statements of [SockAddr::Set] that fill [addr] once the host is
    resolved.  The [memcpy] writes [h_length] bytes starting at [sin_addr],
    so it runs on into [sin_zero] when [h_length] exceeds 4. *)
Definition fill_sockaddr (hp : hostent) (port : Z) : sockaddr_in :=
  let a := zeroed_sockaddr in
  let tail := memcpy (sin_addr a ++ sin_zero a)
                     (nth 0 (h_addr_list hp) []) (h_length hp) in
  {| sin_family := AF_INET P;
     sin_port := htons port;
     sin_addr := firstn 4 tail;
     sin_zero := skipn 4 tail |}.

(** [SockAddr::Set(host, port)] *)
Definition SockAddr_Set (host : string) (port : Z) : M SockAddr :=
  hp <- sys_gethostbyname host ;;
  utils_Check (not_null hp) ("cannot obtain address of " ++ host) ;;
  ret {| addr := fill_sockaddr (deref hp) port |}.

(** [SockAddr(const char *url, int port)] *)
Definition SockAddr_ctor (url : string) (port : Z) : M SockAddr :=
  SockAddr_Set url port.

(** [SockAddr::port()] *)
Definition SockAddr_port (this : SockAddr) : Z :=
  ntohs (sin_port (addr this)).

(** *** [class Socket] *)

Record Socket : Type := { sockfd : Z }.

(** [Socket::Error(msg)] *)
Definition Socket_Error (msg : string) : M unit :=
  errsv <- get_errno ;;
  utils_Error ("Socket " ++ msg ++ " Error:" ++ strerror P errsv).

(** [Socket::Bind(addr)] *)
Definition Socket_Bind (this : Socket) (a : SockAddr) : M unit :=
  r <- sys_bind (sockfd this) (addr a) ;;
  if r =? -1 then Socket_Error "Bind" else ret tt.

(** The [for] loop of [Socket::TryBindHost], with [port] as loop variable. *)
Fixpoint TryBindHost_loop (fuel : nat) (this : Socket) (port end_port : Z)
  : M Z :=
  match fuel with
  | O => out_of_fuel
  | S fuel' =>
      if port <? end_port then
        a <- SockAddr_ctor "0.0.0.0" port ;;
        r <- sys_bind (sockfd this) (addr a) ;;
        if r =? 0 then ret port
        else
          e <- get_errno ;;
          (if negb (e =? EADDRINUSE P) then Socket_Error "TryBindHost"
           else ret tt) ;;
          TryBindHost_loop fuel' this (to_int (port + 1)) end_port
      else ret (-1)
  end.

(** [Socket::TryBindHost(start_port, end_port)] *)
Definition Socket_TryBindHost (fuel : nat) (this : Socket)
           (start_port end_port : Z) : M Z :=
  TryBindHost_loop fuel this start_port end_port.

(** [Socket::Close()]: returns the object after the call. *)
Definition Socket_Close (this : Socket) : M Socket :=
  if negb (sockfd this =? INVALID_SOCKET) then
    sys_close (sockfd this) ;;
    ret {| sockfd := INVALID_SOCKET |}
  else
    Socket_Error "Socket::Close double close the socket or close without create" ;;
    ret this.

(** *** [class TCPSocket : public Socket] *)

Definition TCPSocket : Type := Socket.

(** [TCPSocket(void) : Socket(INVALID_SOCKET)] *)
Definition TCPSocket_default : TCPSocket := {| sockfd := INVALID_SOCKET |}.

(** [explicit TCPSocket(SOCKET sockfd)] *)
Definition TCPSocket_of (fd : Z) : TCPSocket := {| sockfd := fd |}.

(** [TCPSocket::Create(af)]; the argument is not used by the header. *)
Definition TCPSocket_Create (this : TCPSocket) (af : Z) : M TCPSocket :=
  fd <- sys_socket (PF_INET P) (SOCK_STREAM P) 0 ;;
  let this := {| sockfd := fd |} in
  (if sockfd this =? INVALID_SOCKET then Socket_Error "Create" else ret tt) ;;
  ret this.

(** [TCPSocket::Listen(backlog)] *)
Definition TCPSocket_Listen (this : TCPSocket) (backlog : Z) : M unit :=
  sys_listen (sockfd this) backlog ;;
  ret tt.

(** [TCPSocket::Accept()] *)
Definition TCPSocket_Accept (this : TCPSocket) : M TCPSocket :=
  newfd <- sys_accept (sockfd this) ;;
  (if newfd =? INVALID_SOCKET then Socket_Error "Accept" else ret tt) ;;
  ret (TCPSocket_of newfd).

(** [TCPSocket::Send(buf_, len, flag)] *)
Definition TCPSocket_Send (this : TCPSocket) (buf_ : list byte) (len flag : Z)
  : M Z :=
  let buf := 0 in
  if len =? 0 then ret 0
  else sys_send (sockfd this) buf_ buf (to_size_t len) flag.

(** [TCPSocket::Recv(buf_, len, flags)]: returns the count and the buffer. *)
Definition TCPSocket_Recv (this : TCPSocket) (buf_ : list byte) (len flags : Z)
  : M (Z * list byte) :=
  let buf := 0 in
  if len =? 0 then ret (0, buf_)
  else sys_recv (sockfd this) buf_ buf (to_size_t len) flags.

Definition would_block (e : Z) : bool :=
  (e =? EAGAIN P) || (e =? EWOULDBLOCK P).

(** The [while] loop of [TCPSocket::SendAll].  [buf] is the offset of the
    moving pointer into [buf_]; [ndone] is a [size_t].  The [return] inside
    the loop is the first branch of the test on [ret] and [errno]; the other
    branch is what the loop body does when it does not return there. *)
Fixpoint SendAll_loop (fuel : nat) (this : TCPSocket) (buf_ : list byte)
         (len buf ndone : Z) : M Z :=
  match fuel with
  | O => out_of_fuel
  | S fuel' =>
      if ndone <? len then
        r <- sys_send (sockfd this) buf_ buf
                      (to_size_t (to_ssize_t (len - ndone))) 0 ;;
        e <- get_errno ;;
        if (r =? -1) && would_block e then ret ndone
        else
          (if r =? -1 then Socket_Error "SendAll" else ret tt) ;;
          SendAll_loop fuel' this buf_ len (buf + r) (to_size_t (ndone + r))
      else ret ndone
  end.

(** [TCPSocket::SendAll(buf_, len)] *)
Definition TCPSocket_SendAll (fuel : nat) (this : TCPSocket)
           (buf_ : list byte) (len : Z) : M Z :=
  SendAll_loop fuel this buf_ len 0 0.

(** The [while] loop of [TCPSocket::RecvAll], laid out like the one of
    [SendAll]; the buffer is threaded through because [recv] stores into
    it. *)
Fixpoint RecvAll_loop (fuel : nat) (this : TCPSocket) (buf_ : list byte)
         (len buf ndone : Z) : M (Z * list byte) :=
  match fuel with
  | O => out_of_fuel
  | S fuel' =>
      if ndone <? len then
        rb <- sys_recv (sockfd this) buf_ buf
                       (to_size_t (len - ndone)) (MSG_WAITALL P) ;;
        let '(r, buf_') := rb in
        e <- get_errno ;;
        if (r =? -1) && would_block e then ret (ndone, buf_')
        else
          (if r =? -1 then Socket_Error "RecvAll" else ret tt) ;;
          if r =? 0 then ret (ndone, buf_')
          else RecvAll_loop fuel' this buf_' len (buf + r)
                            (to_size_t (ndone + r))
      else ret (ndone, buf_)
  end.

(** [TCPSocket::RecvAll(buf_, len)] *)
Definition TCPSocket_RecvAll (fuel : nat) (this : TCPSocket)
           (buf_ : list byte) (len : Z) : M (Z * list byte) :=
  RecvAll_loop fuel this buf_ len 0 0.

(** *** [struct SelectHelper] *)

Record SelectHelper : Type := {
  maxfd : Z;
  read_set : fd_set;
  write_set : fd_set;
  except_set : fd_set;
  read_fds : list Z;
  write_fds : list Z;
  except_fds : list Z
}.

Definition SelectHelper_WatchRead (this : SelectHelper) (fd : Z) : SelectHelper :=
  {| maxfd := if fd >? maxfd this then fd else maxfd this;
     read_set := read_set this;
     write_set := write_set this;
     except_set := except_set this;
     read_fds := read_fds this ++ [fd];
     write_fds := write_fds this;
     except_fds := except_fds this |}.

Definition SelectHelper_WatchWrite (this : SelectHelper) (fd : Z) : SelectHelper :=
  {| maxfd := if fd >? maxfd this then fd else maxfd this;
     read_set := read_set this;
     write_set := write_set this;
     except_set := except_set this;
     read_fds := read_fds this;
     write_fds := write_fds this ++ [fd];
     except_fds := except_fds this |}.

Definition SelectHelper_WatchException (this : SelectHelper) (fd : Z) : SelectHelper :=
  {| maxfd := if fd >? maxfd this then fd else maxfd this;
     read_set := read_set this;
     write_set := write_set this;
     except_set := except_set this;
     read_fds := read_fds this;
     write_fds := write_fds this;
     except_fds := except_fds this ++ [fd] |}.

Definition SelectHelper_CheckRead (this : SelectHelper) (fd : Z) : bool :=
  FD_ISSET fd (read_set this).

Definition SelectHelper_CheckWrite (this : SelectHelper) (fd : Z) : bool :=
  FD_ISSET fd (write_set this).

Definition SelectHelper_CheckExcept (this : SelectHelper) (fd : Z) : bool :=
  FD_ISSET fd (except_set this).

Definition SelectHelper_Clear (this : SelectHelper) : SelectHelper :=
  {| maxfd := 0;
     read_set := read_set this;
     write_set := write_set this;
     except_set := except_set this;
     read_fds := [];
     write_fds := [];
     except_fds := [] |}.

(** [SelectHelper(void) { this->Clear(); }]: the three vectors start empty,
    [maxfd] and the three [fd_set]s hold whatever the storage held. *)
Definition SelectHelper_ctor (storage : SelectHelper) : SelectHelper :=
  SelectHelper_Clear
    {| maxfd := maxfd storage;
       read_set := read_set storage;
       write_set := write_set storage;
       except_set := except_set storage;
       read_fds := []; write_fds := []; except_fds := [] |}.

(** [FD_ZERO(&s); for (i...) FD_SET(fds[i], &s);] *)
Definition fill_set (fds : list Z) : fd_set :=
  fold_left (fun s fd => FD_SET fd s) fds FD_ZERO.

(** [SelectHelper::Select(timeout)]: returns the count and the object, whose
    three sets now hold what [select] left in them.  [timeout] is a [long];
    [/] and [%] truncate towards zero. *)
Definition SelectHelper_Select (this : SelectHelper) (timeout : Z)
  : M (Z * SelectHelper) :=
  let rd := fill_set (read_fds this) in
  let wr := fill_set (write_fds this) in
  let ex := fill_set (except_fds this) in
  rs <- (if timeout =? 0 then
           sys_select (to_int (maxfd this + 1)) rd wr ex None
         else
           let tm := {| tv_usec := Z.rem timeout 1000 * 1000;
                        tv_sec := Z.quot timeout 1000 |} in
           sys_select (to_int (maxfd this + 1)) rd wr ex (Some tm)) ;;
  let '(r, (rd', wr', ex')) := rs in
  (if r =? -1 then
     errsv <- get_errno ;;
     utils_Error ("Select Error: " ++ strerror P errsv)
   else ret tt) ;;
  ret (r, {| maxfd := maxfd this;
             read_set := rd'; write_set := wr'; except_set := ex';
             read_fds := read_fds this;
             write_fds := write_fds this;
             except_fds := except_fds this |}).

End Socket.

(** ** A concrete platform and concrete operating systems

    Used to run the embedding on explicit inputs. *)

Definition linux_strerror (e : Z) : string :=
  if e =? 9 then "Bad file descriptor"
  else if e =? 11 then "Resource temporarily unavailable"
  else if e =? 98 then "Address already in use"
  else if e =? 104 then "Connection reset by peer"
  else "Unknown error".

(** The values of a little-endian Linux target. *)
Definition linux : platform :=
  {| EAGAIN := 11; EWOULDBLOCK := 11; EADDRINUSE := 98;
     AF_INET := 2; PF_INET := 2; SOCK_STREAM := 1; MSG_WAITALL := 256;
     big_endian := false; strerror := linux_strerror |}.

Definition EBADF : Z := 9.

Definition fresh_world : world := {| errno := 0; trace := [] |}.

(** How many events of the trace satisfy [p]. *)
Definition count_events (p : event -> bool) (w : world) : Z :=
  Z.of_nat (List.length (filter p (trace w))).

Definition is_bind (ev : event) : bool :=
  match ev with EvBind _ _ _ _ => true | _ => false end.

Definition is_socket (ev : event) : bool :=
  match ev with EvSocket _ _ _ _ _ => true | _ => false end.

(** The number of bytes the [recv] calls of a trace delivered on [fd]. *)
Fixpoint received (fd : Z) (evs : list event) : Z :=
  match evs with
  | [] => 0
  | EvRecv fd' _ _ _ r _ _ :: rest =>
      (if (fd' =? fd) && (0 <? r) then r else 0) + received fd rest
  | _ :: rest => received fd rest
  end.

(** The number of bytes the [send] calls of a trace transmitted on [fd]. *)
Fixpoint sent (fd : Z) (evs : list event) : Z :=
  match evs with
  | [] => 0
  | EvSend fd' _ _ _ _ r _ :: rest =>
      (if (fd' =? fd) && (0 <? r) then r else 0) + sent fd rest
  | _ :: rest => sent fd rest
  end.

(** The address family and the address [gethostbyname] gives for a dotted
    quad. *)
Definition ipv4_hostent (a b c d : byte) : hostent :=
  {| h_addrtype := 2; h_length := 4; h_addr_list := [[a; b; c; d]] |}.

Definition hello : list byte := [x68; x65; x6c; x6c; x6f].

(** A small machine:
    - ["0.0.0.0"] and ["localhost"] resolve and leave [errno] alone; no
      other name resolves, and a lookup that fails leaves [errno] at 11;
    - [socket] hands out descriptors 3, 4, ... in order;
    - the first [busy] ports from 9000 on are in use, binding any other
      port succeeds;
    - [listen] fails on a descriptor below 3;
    - no connection is ever pending and the listening handle is
      non-blocking, so [accept] reports [EAGAIN];
    - [send] takes at most [chunk] bytes per call;
    - the peer has written [hello] and then shut down its side: [recv] hands
      out at most [chunk] bytes per call and then 0;
    - [select] reports nothing ready. *)
Definition machine (busy chunk : Z) : OS :=
  {| os_gethostbyname := fun _ host =>
       if String.eqb host "0.0.0.0" then Some (ipv4_hostent x00 x00 x00 x00)
       else if String.eqb host "localhost" then Some (ipv4_hostent x7f x00 x00 x01)
       else None;
     os_gethostbyname_errno := fun w host =>
       if String.eqb host "0.0.0.0" then errno w
       else if String.eqb host "localhost" then errno w
       else 11;
     os_socket := fun w _ _ _ => (3 + count_events is_socket w, errno w);
     os_bind := fun w _ _ =>
       if count_events is_bind w <? busy then (-1, 98) else (0, errno w);
     os_listen := fun w fd _ => if fd <? 3 then (-1, EBADF) else (0, errno w);
     os_accept := fun _ _ => (-1, 11);
     os_close := fun w _ => (0, errno w);
     os_send := fun w _ n _ _ => (Z.min n chunk, errno w);
     os_recv := fun w fd n _ =>
       let seen := received fd (trace w) in
       let data := firstn (Z.to_nat (Z.min n chunk)) (skipn (Z.to_nat seen) hello) in
       (Z.of_nat (List.length data), errno w, data);
     os_select := fun w _ _ _ _ _ => (0, errno w, (0, 0, 0)) |}.

(** A machine on which every call fails with [EBADF]. *)
Definition broken : OS :=
  {| os_gethostbyname := fun _ _ => None;
     os_gethostbyname_errno := fun _ _ => EBADF;
     os_socket := fun _ _ _ _ => (-1, EBADF);
     os_bind := fun _ _ _ => (-1, EBADF);
     os_listen := fun _ _ _ => (-1, EBADF);
     os_accept := fun _ _ => (-1, EBADF);
     os_close := fun _ _ => (-1, EBADF);
     os_send := fun _ _ _ _ _ => (-1, EBADF);
     os_recv := fun _ _ _ _ => (-1, EBADF, []);
     os_select := fun _ _ _ _ _ _ => (-1, EBADF, (0, 0, 0)) |}.

(** ** Vocabulary for statements about traces *)

(** The one [select] call [Select] issues, given the timeout argument it
    passes and what the operating system answers. *)
Definition select_call (this : SelectHelper) (tm : option timeval)
           (r e : Z) (sets : fd_set * fd_set * fd_set) : event :=
  EvSelect (to_int (maxfd this + 1))
           (fill_set (read_fds this)) (fill_set (write_fds this))
           (fill_set (except_fds this)) tm r e
           (fst (fst sets)) (snd (fst sets)) (snd sets).

(** The calls a client can make on a [SelectHelper] between two waits. *)
Inductive watch_op : Type :=
| OpWatchRead (fd : Z)
| OpWatchWrite (fd : Z)
| OpWatchException (fd : Z)
| OpClear.

Definition apply_op (this : SelectHelper) (op : watch_op) : SelectHelper :=
  match op with
  | OpWatchRead fd => SelectHelper_WatchRead this fd
  | OpWatchWrite fd => SelectHelper_WatchWrite this fd
  | OpWatchException fd => SelectHelper_WatchException this fd
  | OpClear => SelectHelper_Clear this
  end.

Definition run_ops (this : SelectHelper) (ops : list watch_op) : SelectHelper :=
  fold_left apply_op ops this.

(** The descriptors a sequence of calls registers: in one of the three sets,
    and in any of them. *)
Definition reads_of (ops : list watch_op) : list Z :=
  flat_map (fun op => match op with OpWatchRead fd => [fd] | _ => [] end) ops.

Definition writes_of (ops : list watch_op) : list Z :=
  flat_map (fun op => match op with OpWatchWrite fd => [fd] | _ => [] end) ops.

Definition excepts_of (ops : list watch_op) : list Z :=
  flat_map (fun op => match op with OpWatchException fd => [fd] | _ => [] end) ops.

Definition fds_of (ops : list watch_op) : list Z :=
  flat_map (fun op => match op with
                      | OpWatchRead fd | OpWatchWrite fd | OpWatchException fd => [fd]
                      | OpClear => []
                      end) ops.

Definition is_clear (op : watch_op) : bool :=
  match op with OpClear => true | _ => false end.

(** The calls that come after the last [Clear] of a sequence: all of them
    when the sequence has no [Clear]. *)
Fixpoint since_last_clear (ops : list watch_op) : list watch_op :=
  match ops with
  | [] => []
  | op :: rest =>
      if existsb is_clear rest then since_last_clear rest
      else if is_clear op then rest
      else op :: rest
  end.

(** ** The loops, in the specification's words

    Each relation below describes one of the three loops the way the
    specification does: which calls are issued from a given loop position,
    with which arguments, and what is returned.  The theorems compare them
    with the embedding of the header. *)

Section LoopSpecifications.

Variable P : platform.
Variable fd : Z.

(** One candidate port of [TryBindRange]: the address ["0.0.0.0":port] is
    built, then bound. *)
Definition bind_attempt (port : Z) (hp : hostent) (r e : Z) : list event :=
  [EvGetHostByName "0.0.0.0" (Some hp);
   EvBind fd (fill_sockaddr P hp port) r e].

(** [TryBindRange] from candidate [port] on: "iterates candidate ports in
    ascending order; returns the first port that succeeds; treats address in
    use as a recoverable per-port failure and continues to the next port; any
    other failure is fatal; returns a sentinel if every candidate in the
    range is in use". *)
Inductive TryBindRange_spec (end_port : Z)
  : Z -> list event -> result Z -> Prop :=
| TB_exhausted (port : Z) :
    end_port <= port ->
    TryBindRange_spec end_port port [] (Done (-1))
| TB_bound (port : Z) (hp : hostent) (e : Z) :
    port < end_port ->
    TryBindRange_spec end_port port (bind_attempt port hp 0 e) (Done port)
| TB_in_use (port : Z) (hp : hostent) (r : Z) (evs : list event)
            (res : result Z) :
    port < end_port ->
    r <> 0 ->
    TryBindRange_spec end_port (port + 1) evs res ->
    TryBindRange_spec end_port port
                      (bind_attempt port hp r (EADDRINUSE P) ++ evs) res
| TB_fatal (port : Z) (hp : hostent) (r e : Z) :
    port < end_port ->
    r <> 0 ->
    e <> EADDRINUSE P ->
    TryBindRange_spec end_port port (bind_attempt port hp r e)
                      (Abort ("Socket TryBindHost Error:" ++ strerror P e)).

(** The bind of candidate [port] failed with address-in-use. *)
Definition failed_in_use (port : Z) (evs : list event) : Prop :=
  exists hp r,
    r <> 0 /\ In (EvBind fd (fill_sockaddr P hp port) r (EADDRINUSE P)) evs.

Variable buf_ : list byte.
Variable len : Z.

(** The [send] issued with [ndone] bytes done: it starts [ndone] bytes into
    the buffer and asks for the remaining count. *)
Definition send_call (ndone r e : Z) : event :=
  EvSend fd ndone (len - ndone) (read_at buf_ ndone (len - ndone)) 0 r e.

(** [SendAll] with [ndone] bytes done: "repeatedly invokes the underlying
    send primitive, advancing the buffer offset, until either the entire
    buffer has been transmitted or a would-block condition is hit (at which
    point it returns the partial count transmitted so far) or an unexpected
    failure occurs (fatal)". *)
Inductive SendAll_spec : Z -> list event -> result Z -> Prop :=
| SA_complete :
    SendAll_spec len [] (Done len)
| SA_more (ndone r e : Z) (evs : list event) (res : result Z) :
    ndone < len ->
    0 <= r <= len - ndone ->
    SendAll_spec (ndone + r) evs res ->
    SendAll_spec ndone (send_call ndone r e :: evs) res
| SA_would_block (ndone e : Z) :
    ndone < len ->
    would_block P e = true ->
    SendAll_spec ndone [send_call ndone (-1) e] (Done ndone)
| SA_fatal (ndone e : Z) :
    ndone < len ->
    would_block P e = false ->
    SendAll_spec ndone [send_call ndone (-1) e]
                 (Abort ("Socket SendAll Error:" ++ strerror P e)).

(** The [recv] issued with [ndone] bytes done. *)
Definition recv_call (ndone r e : Z) (data : list byte) : event :=
  EvRecv fd ndone (len - ndone) (MSG_WAITALL P) r e data.

(** [ReceiveAll] with [ndone] bytes done and the buffer holding [buf]:
    "reliable-read loop requesting exactly the remaining byte count each
    iteration; stops early (returning the partial count) on would-block or
    on a zero-byte read signaling peer shutdown; any other failure is
    fatal". *)
Inductive ReceiveAll_spec
  : Z -> list byte -> list event -> result (Z * list byte) -> Prop :=
| RA_complete (buf : list byte) :
    ReceiveAll_spec len buf [] (Done (len, buf))
| RA_more (ndone r e : Z) (buf data : list byte) (evs : list event)
          (res : result (Z * list byte)) :
    ndone < len ->
    0 < r <= len - ndone ->
    ReceiveAll_spec (ndone + r) (write_at buf ndone data) evs res ->
    ReceiveAll_spec ndone buf (recv_call ndone r e data :: evs) res
| RA_shutdown (ndone e : Z) (buf : list byte) :
    ndone < len ->
    ReceiveAll_spec ndone buf [recv_call ndone 0 e []] (Done (ndone, buf))
| RA_would_block (ndone e : Z) (buf : list byte) :
    ndone < len ->
    would_block P e = true ->
    ReceiveAll_spec ndone buf [recv_call ndone (-1) e []] (Done (ndone, buf))
| RA_fatal (ndone e : Z) (buf : list byte) :
    ndone < len ->
    would_block P e = false ->
    ReceiveAll_spec ndone buf [recv_call ndone (-1) e []]
                    (Abort ("Socket RecvAll Error:" ++ strerror P e)).

End LoopSpecifications.

(** The last call of a run. *)
Definition stopped_by (last : event) (evs : list event) : Prop :=
  exists earlier, evs = earlier ++ [last].

(** How the specification's scan from [port] ends.  It returns -1 with every
    candidate refused with address-in-use; or a port of the range whose bind
    succeeded last, every candidate before it having been refused with
    address-in-use; or it aborts on a bind refused with another error. *)
Definition scan_ending (P : platform) (fd end_port port : Z)
           (evs : list event) (res : result Z) : Prop :=
  match res with
  | Done p =>
      (p = -1
       /\ forall q, port <= q < end_port -> failed_in_use P fd q evs)
      \/ (port <= p < end_port
          /\ (exists hp e, stopped_by (EvBind fd (fill_sockaddr P hp p) 0 e) evs)
          /\ forall q, port <= q < p -> failed_in_use P fd q evs)
  | Abort msg =>
      exists p hp r e,
        port <= p < end_port
        /\ r <> 0
        /\ e <> EADDRINUSE P
        /\ stopped_by (EvBind fd (fill_sockaddr P hp p) r e) evs
        /\ msg = ("Socket TryBindHost Error:" ++ strerror P e)%string
        /\ forall q, port <= q < p -> failed_in_use P fd q evs
  | OutOfFuel => False
  end.

(** ** What is assumed of the operating system *)

(** ["0.0.0.0"] is a dotted quad: [gethostbyname] converts it without a
    lookup and cannot fail. *)
Definition resolves (os : OS) (host : string) : Prop :=
  forall w, os_gethostbyname os w host <> None.

(** [send] on a non-empty request returns -1 or a count that does not exceed
    the request. *)
Definition send_contract (os : OS) : Prop :=
  forall w fd n data flags,
    0 < n -> -1 <= fst (os_send os w fd n data flags) <= n.

(** A [send] that does not fail transmits at least one byte. *)
Definition send_progress (os : OS) : Prop :=
  forall w fd n data flags,
    0 < n -> fst (os_send os w fd n data flags) <> 0.

(** No would-block and no failure ever occurs. *)
Definition send_never_fails (os : OS) : Prop :=
  forall w fd n data flags,
    0 < n -> fst (os_send os w fd n data flags) <> -1.

(** [recv] on a non-empty request returns -1, or 0, or a count that does not
    exceed the request. *)
Definition recv_contract (os : OS) : Prop :=
  forall w fd n flags,
    0 < n -> -1 <= fst (fst (os_recv os w fd n flags)) <= n.

(** Every [bind] on [fd] fails with address-in-use. *)
Definition all_in_use (P : platform) (os : OS) (fd : Z) : Prop :=
  forall w a,
    fst (os_bind os w fd a) <> 0 /\ snd (os_bind os w fd a) = EADDRINUSE P.

(** The peer of [fd] writes [N] bytes after [w0] and then shuts down its
    side: as long as fewer than [N] bytes were received since [w0], [recv]
    delivers between one byte and what is left; after that it returns 0. *)
Definition peer_closes_after (os : OS) (fd : Z) (w0 : world) (N : Z) : Prop :=
  forall evs e n flags,
    0 < n ->
    let r := fst (fst (os_recv os {| errno := e; trace := trace w0 ++ evs |}
                               fd n flags)) in
    (received fd evs < N -> 1 <= r <= Z.min n (N - received fd evs))
    /\ (N <= received fd evs -> r = 0).

(** ** Vocabulary for the contents of the buffers *)

(** The bytes the [send] calls of a trace handed over on [fd]: of each call,
    the first [ret] bytes of what it was given. *)
Fixpoint transmitted (fd : Z) (evs : list event) : list byte :=
  match evs with
  | [] => []
  | EvSend fd' _ _ data _ r _ :: rest =>
      (if fd' =? fd then firstn (Z.to_nat r) data else []) ++ transmitted fd rest
  | _ :: rest => transmitted fd rest
  end.

(** The bytes the [recv] calls of a trace stored on behalf of [fd]. *)
Fixpoint delivered (fd : Z) (evs : list event) : list byte :=
  match evs with
  | [] => []
  | EvRecv fd' _ _ _ _ _ data :: rest =>
      (if fd' =? fd then data else []) ++ delivered fd rest
  | _ :: rest => delivered fd rest
  end.

Definition is_send (ev : event) : bool :=
  match ev with EvSend _ _ _ _ _ _ _ => true | _ => false end.

(** The calls of a scan that makes the given attempts from [port] on: each
    attempt, with the answer of the resolver and the result and [errno] of
    the bind, is the resolution of ["0.0.0.0"] followed by the bind of the
    next port. *)
Fixpoint scan_events (P : platform) (fd port : Z)
         (attempts : list (hostent * Z * Z)) : list event :=
  match attempts with
  | [] => []
  | (hp, r, e) :: rest =>
      bind_attempt P fd port hp r e ++ scan_events P fd (port + 1) rest
  end.

(** [send] accepts the call and transmits nothing. *)
Definition send_stalls (os : OS) : Prop :=
  forall w fd n data flags,
    0 < n -> fst (os_send os w fd n data flags) = 0.

(** [recv] hands over at least as many bytes as it reports. *)
Definition recv_data_contract (os : OS) : Prop :=
  forall w fd n flags,
    0 < n ->
    fst (fst (os_recv os w fd n flags))
    <= Z.of_nat (List.length (snd (os_recv os w fd n flags))).

(** A machine like [machine 0 2] on which one connection is pending: [accept]
    hands out descriptor 4. *)
Definition pending : OS :=
  {| os_gethostbyname := os_gethostbyname (machine 0 2);
     os_gethostbyname_errno := os_gethostbyname_errno (machine 0 2);
     os_socket := os_socket (machine 0 2);
     os_bind := os_bind (machine 0 2);
     os_listen := os_listen (machine 0 2);
     os_accept := fun w _ => (4, errno w);
     os_close := os_close (machine 0 2);
     os_send := os_send (machine 0 2);
     os_recv := os_recv (machine 0 2);
     os_select := os_select (machine 0 2) |}.

(** ** The methods that make other calls

    [SetNonBlock], [Connect] and [GetHostName] call [fcntl], [connect] and
    [gethostname].  These calls get a trace and oracles of their own, next
    to the process state the other methods run on: the oracles see both. *)

(** The constants of [<fcntl.h>] that [SetNonBlock] uses. *)
Record fcntl_constants : Type := {
  O_NONBLOCK : Z;
  F_GETFL : Z;
  F_SETFL : Z
}.

Inductive aux_event : Type :=
| EvFcntl (fd cmd arg ret err : Z)
| EvConnect (fd : Z) (addr : sockaddr_in) (ret err : Z)
| EvGetHostName (len ret err : Z) (name : list byte).

Record aux_world : Type := {
  process : world;
  aux_trace : list aux_event
}.

Record aux_OS : Type := {
  os_fcntl : aux_world -> Z -> Z -> Z -> Z * Z;
  os_connect : aux_world -> Z -> sockaddr_in -> Z * Z;
  os_gethostname : aux_world -> Z -> Z * Z * list byte
}.

Definition MA (A : Type) : Type := aux_world -> result A * aux_world.

Definition aret {A} (a : A) : MA A := fun w => (Done a, w).

Definition abind {A B} (c : MA A) (k : A -> MA B) : MA B :=
  fun w =>
    match c w with
    | (Done a, w') => k a w'
    | (Abort msg, w') => (Abort msg, w')
    | (OutOfFuel, w') => (OutOfFuel, w')
    end.

(** A computation on the process state, run inside [MA]. *)
Definition lift {A} (c : M A) : MA A :=
  fun w =>
    let '(r, p) := c (process w) in
    (r, {| process := p; aux_trace := aux_trace w |}).

Definition arecord (w : aux_world) (e : Z) (ev : aux_event) : aux_world :=
  {| process := {| errno := e; trace := trace (process w) |};
     aux_trace := aux_trace w ++ [ev] |}.

Declare Scope aux_scope.
Delimit Scope aux_scope with aux.
Notation "x <- c ;; k" := (abind c (fun x => k))
  (at level 61, c at next level, right associativity) : aux_scope.
Notation "c ;; k" := (abind c (fun _ => k))
  (at level 61, right associativity) : aux_scope.

(** [std::string(buf.c_str())]: the bytes before the first NUL. *)
Fixpoint c_str (s : list byte) : list byte :=
  match s with
  | [] => []
  | b :: rest => if Byte.eqb b x00 then [] else b :: c_str rest
  end.

Section OtherCalls.

Variable P : platform.
Variable F : fcntl_constants.
Variable aos : aux_OS.

Local Open Scope aux_scope.

Definition sys_fcntl (fd cmd arg : Z) : MA Z :=
  fun w =>
    let '(r, e) := os_fcntl aos w fd cmd arg in
    (Done r, arecord w e (EvFcntl fd cmd arg r e)).

Definition sys_connect (fd : Z) (a : sockaddr_in) : MA Z :=
  fun w =>
    let '(r, e) := os_connect aos w fd a in
    (Done r, arecord w e (EvConnect fd a r e)).

(** [gethostname(buf, len)]: at most [len] bytes are stored from the start
    of the buffer, which is returned with the result. *)
Definition sys_gethostname (buf : list byte) (len : Z) : MA (Z * list byte) :=
  fun w =>
    let '(r, e, name) := os_gethostname aos w len in
    let written := firstn (Z.to_nat len) name in
    (Done (r, write_at buf 0 written), arecord w e (EvGetHostName len r e written)).

(** [SockAddr::GetHostName()]; [buf.resize(256)] fills the string with
    NULs. *)
Definition SockAddr_GetHostName : MA (list byte) :=
  let buf := repeat x00 256 in
  rb <- sys_gethostname buf 256 ;;
  let '(r, buf) := rb in
  lift (utils_Check (negb (r =? -1)) "fail to get host name") ;;
  aret (c_str buf).

(** The flag word [SetNonBlock] writes back: [flag |= O_NONBLOCK] or
    [flag &= ~O_NONBLOCK]. *)
Definition nonblock_flag (non_block : bool) (flag : Z) : Z :=
  if non_block then Z.lor flag (O_NONBLOCK F)
  else Z.land flag (Z.lnot (O_NONBLOCK F)).

(** [Socket::SetNonBlock(non_block)] *)
Definition Socket_SetNonBlock (this : Socket) (non_block : bool) : MA unit :=
  flag <- sys_fcntl (sockfd this) (F_GETFL F) 0 ;;
  (if flag =? -1 then lift (Socket_Error P "SetNonBlock-1") else aret tt) ;;
  let flag := nonblock_flag non_block flag in
  r <- sys_fcntl (sockfd this) (F_SETFL F) flag ;;
  if r =? -1 then lift (Socket_Error P "SetNonBlock-2") else aret tt.

(** [TCPSocket::Connect(addr)] *)
Definition TCPSocket_Connect (this : TCPSocket) (a : SockAddr) : MA bool :=
  r <- sys_connect (sockfd this) (addr a) ;;
  aret (r =? 0).

End OtherCalls.

(** The values of Linux. *)
Definition linux_fcntl : fcntl_constants :=
  {| O_NONBLOCK := 2048; F_GETFL := 3; F_SETFL := 4 |}.

Definition fresh_aux_world : aux_world :=
  {| process := fresh_world; aux_trace := [] |}.

(** The flag word a descriptor has after a trace: the argument of the last
    [F_SETFL] on it, [O_RDWR] when there was none. *)
Fixpoint status_flags (fd : Z) (evs : list aux_event) (flags : Z) : Z :=
  match evs with
  | [] => flags
  | EvFcntl fd' cmd arg r _ :: rest =>
      status_flags fd rest
                   (if (fd' =? fd) && (cmd =? 4) && negb (r =? -1) then arg
                    else flags)
  | _ :: rest => status_flags fd rest flags
  end.

(** A small machine for these calls: descriptors from 3 on are open, with
    flag words that [F_SETFL] stores and [F_GETFL] returns; nobody listens,
    so [connect] is refused; the host is called ["node7"]. *)
Definition aux_machine : aux_OS :=
  {| os_fcntl := fun w fd cmd arg =>
       if fd <? 3 then (-1, EBADF)
       else if cmd =? 3 then (status_flags fd (aux_trace w) 2, errno (process w))
       else (0, errno (process w));
     os_connect := fun _ _ _ => (-1, 111);
     os_gethostname := fun w _ =>
       (0, errno (process w), [x6e; x6f; x64; x65; x37; x00]) |}.

(** * Properties *)

(** ** Proof steps used throughout *)

(** Replace the test [c] by its value [b], which [lia] can justify. *)
Ltac settle c b :=
  replace c with b
    by (symmetry;
        first [apply Z.ltb_lt | apply Z.ltb_ge | apply Z.eqb_eq | apply Z.eqb_neq];
        lia).

(** ** Machine integers *)

Lemma to_size_t_id (x : Z) : is_size_t x -> to_size_t x = x.
Proof.
  unfold is_size_t, SIZE_MAX, to_size_t, wrap_unsigned. intros H.
  apply Z.mod_small. lia.
Qed.

Lemma to_size_t_to_ssize_t (x : Z) : is_size_t x -> to_size_t (to_ssize_t x) = x.
Proof.
  unfold is_size_t, SIZE_MAX, to_size_t, to_ssize_t, wrap_unsigned, wrap_signed.
  intros H. change (2 ^ (64 - 1)) with 9223372036854775808.
  change (2 ^ 64) with 18446744073709551616 in *.
  rewrite Zminus_mod_idemp_l.
  replace (x + 9223372036854775808 - 9223372036854775808) with x by lia.
  apply Z.mod_small. lia.
Qed.

Lemma to_int_id (x : Z) : is_int x -> to_int x = x.
Proof.
  unfold is_int, INT_MIN, INT_MAX, to_int, wrap_signed. intros H.
  change (2 ^ (32 - 1)) with 2147483648. change (2 ^ 32) with 4294967296.
  change (2 ^ 31) with 2147483648 in H.
  rewrite Z.mod_small by lia. lia.
Qed.

(** ** Running the monad *)

Lemma bind_Done {A B} (c : M A) (k : A -> M B) (w w' : world) (a : A) :
  c w = (Done a, w') -> bind c k w = k a w'.
Proof. unfold bind. intros ->. reflexivity. Qed.

Lemma bind_Abort {A B} (c : M A) (k : A -> M B) (w w' : world) (msg : string) :
  c w = (Abort msg, w') -> bind c k w = (Abort msg, w').
Proof. unfold bind. intros ->. reflexivity. Qed.

Lemma Socket_Error_aborts (P : platform) (msg : string) (w : world) :
  Socket_Error P msg w
  = (Abort ("Socket " ++ msg ++ " Error:" ++ strerror P (errno w)), w).
Proof. reflexivity. Qed.

Lemma SockAddr_ctor_resolved (P : platform) (os : OS) (host : string)
      (port : Z) (w : world) (hp : hostent) :
  os_gethostbyname os w host = Some hp ->
  SockAddr_ctor P os host port w
  = (Done {| addr := fill_sockaddr P hp port |},
     {| errno := os_gethostbyname_errno os w host;
        trace := trace w ++ [EvGetHostByName host (Some hp)] |}).
Proof.
  intros Hres. unfold SockAddr_ctor, SockAddr_Set, bind, sys_gethostbyname.
  rewrite Hres. reflexivity.
Qed.

Lemma sys_bind_run (os : OS) (fd : Z) (a : sockaddr_in) (w : world) (r e : Z) :
  os_bind os w fd a = (r, e) ->
  sys_bind os fd a w = (Done r, record w e (EvBind fd a r e)).
Proof. intros H. unfold sys_bind. rewrite H. reflexivity. Qed.

Lemma sys_send_run (os : OS) (fd : Z) (base : list byte) (off n flags : Z)
      (w : world) (r e : Z) :
  os_send os w fd n (read_at base off n) flags = (r, e) ->
  sys_send os fd base off n flags w
  = (Done r, record w e (EvSend fd off n (read_at base off n) flags r e)).
Proof. intros H. unfold sys_send. rewrite H. reflexivity. Qed.

Lemma sys_recv_run (os : OS) (fd : Z) (base : list byte) (off n flags : Z)
      (w : world) (r e : Z) (data : list byte) :
  os_recv os w fd n flags = (r, e, data) ->
  sys_recv os fd base off n flags w
  = (Done (r, write_at base off (firstn (Z.to_nat r) data)),
     record w e (EvRecv fd off n flags r e (firstn (Z.to_nat r) data))).
Proof. intros H. unfold sys_recv. rewrite H. reflexivity. Qed.

Lemma stopped_by_cons (last ev : event) (evs : list event) :
  stopped_by last evs -> stopped_by last (ev :: evs).
Proof. intros [earlier ->]. exists (ev :: earlier). reflexivity. Qed.

Lemma stopped_by_last (last : event) : stopped_by last [last].
Proof. exists []. reflexivity. Qed.

Lemma stopped_by_app (last : event) (earlier evs : list event) :
  stopped_by last evs -> stopped_by last (earlier ++ evs).
Proof.
  intros [before ->]. exists (earlier ++ before). apply app_assoc.
Qed.

Create HintDb trace_db.
#[local] Hint Resolve stopped_by_cons stopped_by_last stopped_by_app : trace_db.

(** ** [Socket::Close] *)

(** C5.  [Close] on a handle whose descriptor is not [INVALID_SOCKET] issues
    one [close] on that descriptor and leaves the handle holding
    [INVALID_SOCKET]; [Close] on a handle that holds [INVALID_SOCKET] issues
    no call and aborts with the double-close message.  Hence on a handle that
    [Create] just filled, the first [Close] succeeds and the second one
    aborts. *)
Theorem Close_once_then_error :
  forall (P : platform) (os : OS) (this : Socket) (w : world),
    (sockfd this <> INVALID_SOCKET ->
     exists r e,
       Socket_Close P os this w
       = (Done {| sockfd := INVALID_SOCKET |},
          record w e (EvClose (sockfd this) r e)))
    /\ (sockfd this = INVALID_SOCKET ->
        Socket_Close P os this w
        = (Abort ("Socket Socket::Close double close the socket or close without create Error:"
                  ++ strerror P (errno w)), w))
    /\ (forall af created w1,
           TCPSocket_Create P os this af w = (Done created, w1) ->
           exists closed w2 msg,
             Socket_Close P os created w1 = (Done closed, w2)
             /\ sockfd closed = INVALID_SOCKET
             /\ (exists r e, trace w2 = trace w1 ++ [EvClose (sockfd created) r e])
             /\ Socket_Close P os closed w2 = (Abort msg, w2)).
Proof.
  intros P os this w.
  assert (Hvalid : forall (s : Socket) (v : world),
             sockfd s <> INVALID_SOCKET ->
             exists r e,
               Socket_Close P os s v
               = (Done {| sockfd := INVALID_SOCKET |},
                  record v e (EvClose (sockfd s) r e))).
  { intros s v Hs. unfold Socket_Close.
    apply Z.eqb_neq in Hs. rewrite Hs. simpl.
    unfold bind, sys_close.
    destruct (os_close os v (sockfd s)) as [r e].
    exists r, e. reflexivity. }
  assert (Hinvalid : forall (s : Socket) (v : world),
             sockfd s = INVALID_SOCKET ->
             Socket_Close P os s v
             = (Abort ("Socket Socket::Close double close the socket or close without create Error:"
                       ++ strerror P (errno v)), v)).
  { intros s v Hs. unfold Socket_Close.
    apply Z.eqb_eq in Hs. rewrite Hs. simpl.
    apply bind_Abort. apply Socket_Error_aborts. }
  split; [apply Hvalid | split; [apply Hinvalid |]].
  intros af created w1 Hcreate.
  assert (Hfd : sockfd created <> INVALID_SOCKET).
  { unfold TCPSocket_Create, bind, sys_socket in Hcreate.
    destruct (os_socket os w (PF_INET P) (SOCK_STREAM P) 0) as [fd e].
    cbn [sockfd] in Hcreate.
    destruct (fd =? INVALID_SOCKET) eqn:Hfd.
    - rewrite Socket_Error_aborts in Hcreate. discriminate.
    - cbn in Hcreate. inversion Hcreate; subst. cbn.
      apply Z.eqb_neq. exact Hfd. }
  destruct (Hvalid created w1 Hfd) as (r & e & Hclose).
  do 3 eexists. rewrite Hclose.
  split; [reflexivity | split; [reflexivity | split]].
  - exists r, e. reflexivity.
  - apply Hinvalid. reflexivity.
Qed.

Lemma Close_once_then_error_witness :
  exists closed w2 msg,
    Socket_Close linux (machine 0 2) (TCPSocket_of 3)
                 (record fresh_world 0 (EvSocket 2 1 0 3 0))
    = (Done closed, w2)
    /\ sockfd closed = INVALID_SOCKET
    /\ (exists r e,
           trace w2
           = trace (record fresh_world 0 (EvSocket 2 1 0 3 0))
                   ++ [EvClose (sockfd (TCPSocket_of 3)) r e])
    /\ Socket_Close linux (machine 0 2) closed w2 = (Abort msg, w2).
Proof.
  apply (proj2 (proj2 (Close_once_then_error linux (machine 0 2)
                         TCPSocket_default fresh_world)) 2).
  reflexivity.
Defined.

(** ** [TCPSocket::Listen] *)

Lemma Listen_always_returns (os : OS) (this : TCPSocket) (backlog : Z) (w : world) :
  fst (TCPSocket_Listen os this backlog w) = Done tt.
Proof.
  unfold TCPSocket_Listen, bind, sys_listen.
  destruct (os_listen os w (sockfd this) backlog). reflexivity.
Qed.

(** C6.  What the header does when [listen] fails: on a handle that was
    never created the call returns -1 with [EBADF], and [Listen] returns
    normally all the same; the failure is visible in the trace only. *)
Theorem Listen_ignores_listen_failure :
  os_listen (machine 0 2) fresh_world (sockfd TCPSocket_default) 16 = (-1, EBADF)
  /\ TCPSocket_Listen (machine 0 2) TCPSocket_default 16 fresh_world
     = (Done tt, {| errno := EBADF; trace := [EvListen (-1) 16 (-1) EBADF] |}).
Proof. split; reflexivity. Qed.

(** ** [TCPSocket::Accept] *)

(** C4, as the header has it.  [Accept] issues one [accept]; when that
    returns [INVALID_SOCKET], whatever [errno] says (would-block included),
    [Accept] aborts with the message that names the operation and carries
    the platform's text for [errno]; otherwise it returns a handle on the
    descriptor [accept] returned. *)
Theorem Accept_any_failure_is_fatal :
  forall (P : platform) (os : OS) (this : TCPSocket) (w : world) (newfd e : Z),
    os_accept os w (sockfd this) = (newfd, e) ->
    TCPSocket_Accept P os this w
    = (if newfd =? INVALID_SOCKET
       then Abort ("Socket Accept Error:" ++ strerror P e)
       else Done (TCPSocket_of newfd),
       record w e (EvAccept (sockfd this) newfd e)).
Proof.
  intros P os this w newfd e Hos.
  unfold TCPSocket_Accept, bind, sys_accept. rewrite Hos.
  destruct (newfd =? INVALID_SOCKET); reflexivity.
Qed.

Lemma Accept_any_failure_is_fatal_witness :
  TCPSocket_Accept linux broken (TCPSocket_of 3) fresh_world
  = (if -1 =? INVALID_SOCKET
     then Abort ("Socket Accept Error:" ++ strerror linux EBADF)
     else Done (TCPSocket_of (-1)),
     record fresh_world EBADF (EvAccept (sockfd (TCPSocket_of 3)) (-1) EBADF)).
Proof.
  apply (Accept_any_failure_is_fatal linux broken (TCPSocket_of 3) fresh_world
                                     (-1) EBADF).
  reflexivity.
Defined.

(** C4, as the claim states it, fails: on a non-blocking listening handle
    with no connection pending, [accept] reports would-block and [Accept]
    aborts; no handle and no ordinary value reaches the caller. *)
Lemma Accept_would_block_counterexample :
  os_accept (machine 0 2) fresh_world 3 = (-1, EAGAIN linux)
  /\ would_block linux (EAGAIN linux) = true
  /\ fst (TCPSocket_Accept linux (machine 0 2) (TCPSocket_of 3) fresh_world)
     = Abort "Socket Accept Error:Resource temporarily unavailable"
  /\ ~ (exists sock, fst (TCPSocket_Accept linux (machine 0 2) (TCPSocket_of 3)
                                           fresh_world) = Done sock).
Proof.
  repeat split; try reflexivity.
  intros [sock H]. discriminate H.
Qed.

(** ** [TCPSocket::Send] and [TCPSocket::Recv] *)

(** C7.  With [len = 0] both [Send] and [Recv] return 0 and leave the world
    as it was: no call is issued.  With [len <> 0] they issue one call, and
    when that call returns -1 so do they. *)
Theorem Send_Recv_zero_length_and_failure :
  forall (os : OS) (this : TCPSocket) (buf_ : list byte) (len flag : Z)
         (w : world),
    TCPSocket_Send os this buf_ 0 flag w = (Done 0, w)
    /\ TCPSocket_Recv os this buf_ 0 flag w = (Done (0, buf_), w)
    /\ (len <> 0 ->
        forall e,
          os_send os w (sockfd this) (to_size_t len)
                  (read_at buf_ 0 (to_size_t len)) flag = (-1, e) ->
          TCPSocket_Send os this buf_ len flag w
          = (Done (-1),
             record w e (EvSend (sockfd this) 0 (to_size_t len)
                                (read_at buf_ 0 (to_size_t len)) flag (-1) e)))
    /\ (len <> 0 ->
        forall e data,
          os_recv os w (sockfd this) (to_size_t len) flag = (-1, e, data) ->
          TCPSocket_Recv os this buf_ len flag w
          = (Done (-1, buf_),
             record w e (EvRecv (sockfd this) 0 (to_size_t len) flag (-1) e []))).
Proof.
  intros os this buf_ len flag w.
  split; [reflexivity | split; [reflexivity | split]].
  - intros Hlen e Hos. unfold TCPSocket_Send.
    apply Z.eqb_neq in Hlen. rewrite Hlen.
    unfold sys_send. rewrite Hos. reflexivity.
  - intros Hlen e data Hos. unfold TCPSocket_Recv.
    apply Z.eqb_neq in Hlen. rewrite Hlen.
    unfold sys_recv. rewrite Hos. reflexivity.
Qed.

Lemma Send_Recv_zero_length_and_failure_witness :
  TCPSocket_Send broken (TCPSocket_of 3) hello 5 0 fresh_world
  = (Done (-1),
     record fresh_world EBADF
            (EvSend 3 0 (to_size_t 5) (read_at hello 0 (to_size_t 5)) 0 (-1) EBADF))
  /\ TCPSocket_Recv broken (TCPSocket_of 3) hello 5 0 fresh_world
     = (Done (-1, hello),
        record fresh_world EBADF (EvRecv 3 0 (to_size_t 5) 0 (-1) EBADF [])).
Proof.
  pose proof (Send_Recv_zero_length_and_failure broken (TCPSocket_of 3) hello 5 0
                                                fresh_world) as (_ & _ & Hs & Hr).
  split.
  - apply Hs; [lia | reflexivity].
  - apply (Hr ltac:(lia) EBADF []). reflexivity.
Defined.

(** ** [SelectHelper::Select] *)

Lemma Select_trace (P : platform) (os : OS) (this : SelectHelper)
      (timeout : Z) (w : world) :
  exists r e sets,
    snd (SelectHelper_Select P os this timeout w)
    = record w e
        (select_call this
           (if timeout =? 0 then None
            else Some {| tv_sec := Z.quot timeout 1000;
                         tv_usec := Z.rem timeout 1000 * 1000 |})
           r e sets).
Proof.
  unfold SelectHelper_Select, bind, sys_select, select_call.
  destruct (timeout =? 0).
  - destruct (os_select os w _ _ _ _ None) as [[r e] [[rd' wr'] ex']].
    exists r, e, (rd', wr', ex'). destruct (r =? -1); reflexivity.
  - destruct (os_select os w _ _ _ _ (Some _)) as [[r e] [[rd' wr'] ex']].
    exists r, e, (rd', wr', ex'). destruct (r =? -1); reflexivity.
Qed.

(** C10.  [Select] issues exactly one [select].  With [timeout = 0] the
    timeout argument is the null pointer, which makes [select] wait without
    bound; with [timeout > 0] it is the duration of [timeout / 1000] seconds
    and [(timeout mod 1000) * 1000] microseconds. *)
Theorem Select_timeout_argument :
  forall (P : platform) (os : OS) (this : SelectHelper) (timeout : Z)
         (w : world),
    (exists r e sets,
        snd (SelectHelper_Select P os this 0 w)
        = record w e (select_call this None r e sets))
    /\ (0 < timeout ->
        exists r e sets,
          snd (SelectHelper_Select P os this timeout w)
          = record w e
              (select_call this
                 (Some {| tv_sec := timeout / 1000;
                          tv_usec := (timeout mod 1000) * 1000 |})
                 r e sets)).
Proof.
  intros P os this timeout w. split.
  - apply (Select_trace P os this 0 w).
  - intros Hpos.
    destruct (Select_trace P os this timeout w) as (r & e & sets & H).
    exists r, e, sets. rewrite H.
    settle (timeout =? 0) false.
    rewrite Z.quot_div_nonneg by lia. rewrite Z.rem_mod_nonneg by lia.
    reflexivity.
Qed.

Lemma Select_timeout_argument_witness :
  exists r e sets,
    snd (SelectHelper_Select linux (machine 0 2)
           (SelectHelper_WatchRead
              (SelectHelper_ctor
                 {| maxfd := 77; read_set := 5; write_set := 6; except_set := 7;
                    read_fds := []; write_fds := []; except_fds := [] |}) 4)
           1500 fresh_world)
    = record fresh_world e
        (select_call
           (SelectHelper_WatchRead
              (SelectHelper_ctor
                 {| maxfd := 77; read_set := 5; write_set := 6; except_set := 7;
                    read_fds := []; write_fds := []; except_fds := [] |}) 4)
           (Some {| tv_sec := 1500 / 1000; tv_usec := (1500 mod 1000) * 1000 |})
           r e sets).
Proof.
  apply (Select_timeout_argument linux (machine 0 2)). lia.
Defined.

(** ** [SockAddr::Set] and [SockAddr::port] *)

Lemma testbit_255 (n : Z) : 0 <= n -> Z.testbit 255 n = (n <? 8).
Proof.
  intros Hn. change 255 with (Z.ones 8).
  apply Z.testbit_ones_nonneg; lia.
Qed.

(** Bit [n] of the swapped value: the low byte comes from bits 8..15, the
    high byte from bits 0..7, and nothing lies above bit 15. *)
Lemma bswap16_bit (x n : Z) :
  0 <= n ->
  Z.testbit (bswap16 x) n
  = if n <? 8 then Z.testbit x (n + 8)
    else if n <? 16 then Z.testbit x (n - 8) else false.
Proof.
  intros Hn. unfold bswap16.
  rewrite Z.lor_spec, Z.land_spec, testbit_255, Z.shiftr_spec by lia.
  destruct (n <? 8) eqn:H8.
  - apply Z.ltb_lt in H8.
    rewrite Z.shiftl_spec_low by lia.
    rewrite andb_true_r. reflexivity.
  - apply Z.ltb_ge in H8.
    rewrite Z.shiftl_spec by lia.
    rewrite Z.land_spec, testbit_255 by lia.
    rewrite andb_false_r, orb_false_r.
    destruct (n <? 16) eqn:H16.
    + apply Z.ltb_lt in H16.
      settle (n - 8 <? 8) true.
      apply andb_true_r.
    + apply Z.ltb_ge in H16.
      settle (n - 8 <? 8) false.
      apply andb_false_r.
Qed.

Lemma uint16_high_bits (x n : Z) :
  0 <= x < 2 ^ 16 -> 16 <= n -> Z.testbit x n = false.
Proof.
  intros Hx Hn. rewrite <- (Z.mod_small x (2 ^ 16)) by lia.
  apply Z.mod_pow2_bits_high. lia.
Qed.

Lemma to_uint16_bswap16 (x : Z) : to_uint16 (bswap16 x) = bswap16 x.
Proof.
  unfold to_uint16, wrap_unsigned.
  apply Z.bits_inj'. intros n Hn.
  destruct (Z.ltb_spec n 16) as [Hlt | Hge].
  - apply Z.mod_pow2_bits_low. lia.
  - rewrite Z.mod_pow2_bits_high by lia.
    rewrite bswap16_bit by lia.
    settle (n <? 8) false.
    settle (n <? 16) false.
    reflexivity.
Qed.

Lemma bswap16_involutive (x : Z) : 0 <= x < 2 ^ 16 -> bswap16 (bswap16 x) = x.
Proof.
  intros Hx. apply Z.bits_inj'. intros n Hn.
  rewrite bswap16_bit by lia.
  destruct (Z.ltb_spec n 8) as [H8 | H8].
  - rewrite bswap16_bit by lia.
    settle (n + 8 <? 8) false.
    settle (n + 8 <? 16) true.
    f_equal. lia.
  - destruct (Z.ltb_spec n 16) as [H16 | H16].
    + rewrite bswap16_bit by lia.
      settle (n - 8 <? 8) true.
      f_equal. lia.
    + symmetry. apply uint16_high_bits; assumption.
Qed.

Lemma ntohs_htons (P : platform) (port : Z) :
  0 <= port <= 65535 -> ntohs P (htons P port) = port.
Proof.
  intros Hp. unfold ntohs, htons.
  assert (Hid : to_uint16 port = port).
  { unfold to_uint16, wrap_unsigned. apply Z.mod_small.
    change (2 ^ 16) with 65536. lia. }
  rewrite Hid. destruct (big_endian P).
  - exact Hid.
  - rewrite to_uint16_bswap16. apply bswap16_involutive.
    change (2 ^ 16) with 65536. lia.
Qed.

(** C8.  For a port in [0, 65535] and a host that [gethostbyname] resolves,
    [Set] returns an address, and [port()] of that address is the port that
    was given. *)
Theorem Set_then_port_roundtrip :
  forall (P : platform) (os : OS) (host : string) (port : Z) (w : world),
    0 <= port <= 65535 ->
    os_gethostbyname os w host <> None ->
    exists a w',
      SockAddr_Set P os host port w = (Done a, w')
      /\ SockAddr_port P a = port.
Proof.
  intros P os host port w Hport Hres.
  unfold SockAddr_Set, bind, sys_gethostbyname.
  destruct (os_gethostbyname os w host) as [hp |]; [| contradiction].
  cbn. eexists. eexists. split; [reflexivity |].
  unfold SockAddr_port. cbn. apply ntohs_htons. exact Hport.
Qed.

Lemma Set_then_port_roundtrip_witness :
  exists a w',
    SockAddr_Set linux (machine 0 2) "localhost" 9091 fresh_world = (Done a, w')
    /\ SockAddr_port linux a = 9091.
Proof.
  apply (Set_then_port_roundtrip linux (machine 0 2) "localhost" 9091 fresh_world).
  - lia.
  - discriminate.
Defined.

(** ** [SelectHelper]: the running maximum *)

(** What folding [Z.max] over a list from [m] gives: an upper bound of [m]
    and of the list that is [m] or a member of the list. *)
Lemma fold_max_spec (l : list Z) :
  forall m : Z,
    m <= fold_left Z.max l m
    /\ Forall (fun fd => fd <= fold_left Z.max l m) l
    /\ (fold_left Z.max l m = m \/ In (fold_left Z.max l m) l).
Proof.
  induction l as [| x l IH]; intros m; cbn.
  - split; [lia | split; [constructor | left; reflexivity]].
  - destruct (IH (Z.max m x)) as (Hle & Hall & Hin).
    split; [lia | split].
    + constructor; [lia | exact Hall].
    + destruct Hin as [Heq | Hin].
      * rewrite Heq. destruct (Z.max_spec m x) as [[_ ->] | [_ ->]]; auto.
      * right. right. exact Hin.
Qed.

Lemma watch_updates_maxfd (this : SelectHelper) (fd : Z) :
  (if fd >? maxfd this then fd else maxfd this) = Z.max (maxfd this) fd.
Proof. rewrite Z.gtb_ltb. destruct (Z.ltb_spec (maxfd this) fd); lia. Qed.

(** Registrations without a [Clear] in between extend the three vectors and
    fold [Z.max] into [maxfd]. *)
Lemma run_ops_no_clear (ops : list watch_op) :
  ~ In OpClear ops ->
  forall this : SelectHelper,
    read_fds (run_ops this ops) = read_fds this ++ reads_of ops
    /\ write_fds (run_ops this ops) = write_fds this ++ writes_of ops
    /\ except_fds (run_ops this ops) = except_fds this ++ excepts_of ops
    /\ maxfd (run_ops this ops) = fold_left Z.max (fds_of ops) (maxfd this).
Proof.
  induction ops as [| op ops IH]; intros Hno this.
  - cbn. rewrite !app_nil_r. auto.
  - assert (Hno' : ~ In OpClear ops) by (intros H; apply Hno; right; exact H).
    assert (Hop : op <> OpClear) by (intros ->; apply Hno; left; reflexivity).
    specialize (IH Hno' (apply_op this op)).
    destruct IH as (Hr & Hw & He & Hm).
    unfold run_ops in *. cbn [fold_left].
    rewrite Hr, Hw, He, Hm.
    destruct op as [fd | fd | fd |]; [| | | contradiction];
      cbn; rewrite watch_updates_maxfd, <- ?app_assoc; auto.
Qed.

(** After the constructor, and after any sequence that ends with [Clear],
    the three vectors are empty and [maxfd] is 0. *)
Lemma run_ops_cleared (storage : SelectHelper) (pre : list watch_op) :
  pre = [] \/ (exists pre', pre = pre' ++ [OpClear]) ->
  let this := run_ops (SelectHelper_ctor storage) pre in
  read_fds this = [] /\ write_fds this = [] /\ except_fds this = []
  /\ maxfd this = 0.
Proof.
  intros [-> | [pre' ->]]; cbn.
  - auto.
  - unfold run_ops. rewrite fold_left_app. cbn. auto.
Qed.

(** The state after [recent], a run of registrations that follows the
    constructor or a [Clear]. *)
Lemma maxfd_since_clear (storage : SelectHelper) (earlier recent : list watch_op) :
  earlier = [] \/ (exists ops, earlier = ops ++ [OpClear]) ->
  ~ In OpClear recent ->
  Forall (fun fd => 0 <= fd) (fds_of recent) ->
  let this := run_ops (SelectHelper_ctor storage) (earlier ++ recent) in
  (read_fds this = reads_of recent
   /\ write_fds this = writes_of recent
   /\ except_fds this = excepts_of recent)
  /\ (fds_of recent = [] -> maxfd this = 0)
  /\ (fds_of recent <> [] ->
      In (maxfd this) (fds_of recent)
      /\ Forall (fun fd => fd <= maxfd this) (fds_of recent)).
Proof.
  intros Hearlier Hno Hnonneg this.
  destruct (run_ops_cleared storage earlier Hearlier) as (Hr0 & Hw0 & He0 & Hm0).
  destruct (run_ops_no_clear recent Hno
              (run_ops (SelectHelper_ctor storage) earlier))
    as (Hr & Hw & He & Hm).
  assert (Hthis : this = run_ops (run_ops (SelectHelper_ctor storage) earlier) recent).
  { unfold this, run_ops. apply fold_left_app. }
  rewrite <- Hthis in Hr, Hw, He, Hm.
  rewrite Hr0 in Hr. rewrite Hw0 in Hw. rewrite He0 in He. rewrite Hm0 in Hm.
  cbn [app] in Hr, Hw, He.
  destruct (fold_max_spec (fds_of recent) 0) as (Hle & Hall & Hin).
  rewrite <- Hm in Hle, Hall, Hin.
  split; [auto |]. split.
  - intros Hnone. rewrite Hm, Hnone. reflexivity.
  - intros Hsome. split; [| exact Hall].
    destruct Hin as [Hzero | Hin]; [| exact Hin].
    destruct (fds_of recent) as [| fd fds]; [contradiction |].
    inversion Hnonneg as [| ? ? Hfd _]; subst.
    inversion Hall as [| ? ? Hfd' _]; subst.
    left. lia.
Qed.

Lemma no_clear_iff (ops : list watch_op) :
  existsb is_clear ops = false <-> ~ In OpClear ops.
Proof.
  split.
  - intros Hex Hin.
    assert (Htrue : existsb is_clear ops = true).
    { apply existsb_exists. exists OpClear. split; [exact Hin | reflexivity]. }
    congruence.
  - intros Hno. destruct (existsb is_clear ops) eqn:Hex; [| reflexivity].
    apply existsb_exists in Hex. destruct Hex as (op & Hin & Hop).
    destruct op; try discriminate Hop. contradiction.
Qed.

(** Every sequence splits at its last [Clear]. *)
Lemma split_at_last_clear (ops : list watch_op) :
  exists earlier,
    ops = earlier ++ since_last_clear ops
    /\ (earlier = [] \/ (exists pre, earlier = pre ++ [OpClear]))
    /\ ~ In OpClear (since_last_clear ops).
Proof.
  induction ops as [| op rest IH].
  - exists []. cbn. auto.
  - destruct IH as (earlier & Hsplit & Hends & Hno).
    cbn [since_last_clear].
    destruct (existsb is_clear rest) eqn:Hex.
    + exists (op :: earlier). split; [cbn; f_equal; exact Hsplit |].
      split; [| exact Hno]. right.
      destruct Hends as [-> | [pre ->]].
      * exfalso. cbn in Hsplit. rewrite <- Hsplit in Hno.
        apply no_clear_iff in Hno. congruence.
      * exists (op :: pre). reflexivity.
    + apply no_clear_iff in Hex.
      destruct op as [fd | fd | fd |]; cbn [is_clear].
      * exists []. split; [reflexivity | split; [auto |]].
        intros [H | H]; [discriminate H | contradiction].
      * exists []. split; [reflexivity | split; [auto |]].
        intros [H | H]; [discriminate H | contradiction].
      * exists []. split; [reflexivity | split; [auto |]].
        intros [H | H]; [discriminate H | contradiction].
      * exists [OpClear]. split; [reflexivity | split; [| exact Hex]].
        right. exists []. reflexivity.
Qed.

Lemma fds_of_app (ops ops' : list watch_op) :
  fds_of (ops ++ ops') = fds_of ops ++ fds_of ops'.
Proof. apply flat_map_app. Qed.

(** C9.  Take any sequence of [WatchRead], [WatchWrite], [WatchException]
    and [Clear] calls with non-negative descriptors on a constructed
    [SelectHelper], and let [recent] be the calls after the last [Clear].
    Then the three vectors hold what [recent] registered, [maxfd] is 0 when
    [recent] registered nothing and otherwise is the largest descriptor
    [recent] registered; and [Clear] empties the three vectors and sets
    [maxfd] to 0. *)
Theorem maxfd_tracks_maximum :
  forall (storage : SelectHelper) (ops : list watch_op),
    Forall (fun fd => 0 <= fd) (fds_of ops) ->
    let this := run_ops (SelectHelper_ctor storage) ops in
    let recent := since_last_clear ops in
    (read_fds this = reads_of recent
     /\ write_fds this = writes_of recent
     /\ except_fds this = excepts_of recent)
    /\ (fds_of recent = [] -> maxfd this = 0)
    /\ (fds_of recent <> [] ->
        In (maxfd this) (fds_of recent)
        /\ Forall (fun fd => fd <= maxfd this) (fds_of recent))
    /\ (read_fds (SelectHelper_Clear this) = []
        /\ write_fds (SelectHelper_Clear this) = []
        /\ except_fds (SelectHelper_Clear this) = []
        /\ maxfd (SelectHelper_Clear this) = 0).
Proof.
  intros storage ops Hnonneg this recent.
  destruct (split_at_last_clear ops) as (earlier & Hsplit & Hends & Hno).
  fold recent in Hsplit, Hno.
  assert (Hrecent : Forall (fun fd => 0 <= fd) (fds_of recent)).
  { rewrite Hsplit, fds_of_app in Hnonneg.
    apply Forall_app in Hnonneg. apply Hnonneg. }
  pose proof (maxfd_since_clear storage earlier recent Hends Hno Hrecent) as H.
  cbv zeta in H. rewrite <- Hsplit in H. fold this in H.
  destruct H as (Hsets & Hnone & Hsome).
  split; [exact Hsets | split; [exact Hnone | split; [exact Hsome |]]].
  cbn. auto.
Qed.

Lemma maxfd_tracks_maximum_witness :
  let this :=
    run_ops (SelectHelper_ctor
               {| maxfd := 77; read_set := 5; write_set := 6; except_set := 7;
                  read_fds := []; write_fds := []; except_fds := [] |})
            [OpWatchRead 9; OpClear;
             OpWatchRead 4; OpWatchWrite 6; OpWatchException 5] in
  maxfd this = 6 /\ read_fds this = [4].
Proof.
  intros this.
  pose proof (maxfd_tracks_maximum
                {| maxfd := 77; read_set := 5; write_set := 6; except_set := 7;
                   read_fds := []; write_fds := []; except_fds := [] |}
                [OpWatchRead 9; OpClear;
                 OpWatchRead 4; OpWatchWrite 6; OpWatchException 5]) as H.
  cbv zeta in H. fold this in H.
  destruct H as ((Hr & _) & _ & Hmax & _).
  - cbn. repeat constructor; lia.
  - split; [| exact Hr].
    destruct Hmax as [Hin Hall]; [cbn; discriminate |].
    cbn [since_last_clear existsb is_clear orb fds_of flat_map app] in Hin, Hall.
    inversion Hall as [| ? ? _ Hall']; subst.
    inversion Hall' as [| ? ? H6 _]; subst.
    destruct Hin as [H | [H | [H | []]]]; lia.
Defined.

(** ** [Socket::TryBindHost] *)

Section TryBindHost.

Variable P : platform.
Variable os : OS.
Variable this : Socket.
Variable end_port : Z.

Hypothesis any_resolves : resolves os "0.0.0.0".
Hypothesis end_port_int : is_int end_port.

Lemma TryBindHost_loop_exit (fuel : nat) (port : Z) (w : world) :
  end_port <= port ->
  TryBindHost_loop P os (S fuel) this port end_port w = (Done (-1), w).
Proof.
  intros Hge. cbn [TryBindHost_loop].
  settle (port <? end_port) false.
  reflexivity.
Qed.

(** One turn of the loop on a candidate below [end_port]. *)
Lemma TryBindHost_loop_step (fuel : nat) (port : Z) (w : world) :
  port < end_port ->
  exists hp r e,
    let w2 := {| errno := e;
                 trace := trace w ++ bind_attempt P (sockfd this) port hp r e |} in
    TryBindHost_loop P os (S fuel) this port end_port w
    = (if r =? 0 then (Done port, w2)
       else if e =? EADDRINUSE P
            then TryBindHost_loop P os fuel this (to_int (port + 1)) end_port w2
            else (Abort ("Socket TryBindHost Error:" ++ strerror P e), w2))
    /\ (r, e) = os_bind os {| errno := os_gethostbyname_errno os w "0.0.0.0";
                              trace := trace w ++ [EvGetHostByName "0.0.0.0" (Some hp)] |}
                        (sockfd this) (fill_sockaddr P hp port).
Proof.
  intros Hlt. cbn [TryBindHost_loop].
  settle (port <? end_port) true.
  destruct (os_gethostbyname os w "0.0.0.0") as [hp |] eqn:Hres;
    [| exfalso; exact (any_resolves w Hres)].
  rewrite (bind_Done _ _ _ _ _ (SockAddr_ctor_resolved P os _ port w hp Hres)).
  cbv beta. cbn [addr].
  match goal with
  | |- context [bind (sys_bind os ?f ?a) _ ?w1] =>
      destruct (os_bind os w1 f a) as [r e] eqn:Hbind;
      rewrite (bind_Done _ _ _ _ _ (sys_bind_run os f a w1 r e Hbind))
  end.
  exists hp, r, e. split; [| symmetry; exact Hbind].
  match goal with
  | |- context [record ?w1 e ?ev] =>
      replace (record w1 e ev)
        with {| errno := e;
                trace := trace w ++ bind_attempt P (sockfd this) port hp r e |}
        by (unfold record, bind_attempt; cbn [trace];
            rewrite <- app_assoc; reflexivity)
  end.
  destruct (r =? 0); [reflexivity |].
  unfold bind at 1, get_errno. cbn [errno].
  destruct (e =? EADDRINUSE P); cbn [negb].
  - reflexivity.
  - apply bind_Abort. apply Socket_Error_aborts.
Qed.

Lemma next_port (port : Z) :
  INT_MIN <= port -> port < end_port -> to_int (port + 1) = port + 1.
Proof.
  intros Hmin Hlt. apply to_int_id.
  unfold is_int in *. lia.
Qed.

(** With more fuel than candidates the loop finishes, and what it did from
    [port] on is what the specification describes. *)
Lemma TryBindHost_loop_spec (fuel : nat) :
  forall (port : Z) (w w' : world) (res : result Z),
    INT_MIN <= port ->
    (Z.to_nat (end_port - port) < fuel)%nat ->
    TryBindHost_loop P os fuel this port end_port w = (res, w') ->
    exists evs,
      trace w' = trace w ++ evs
      /\ TryBindRange_spec P (sockfd this) end_port port evs res.
Proof.
  induction fuel as [| fuel IH]; intros port w w' res Hmin Hfuel Hrun; [lia |].
  destruct (Z_lt_le_dec port end_port) as [Hlt | Hge].
  - destruct (TryBindHost_loop_step fuel port w Hlt) as (hp & r & e & Hstep & _).
    cbv zeta in Hstep. rewrite Hstep in Hrun. clear Hstep.
    destruct (Z.eqb_spec r 0) as [-> | Hr].
    + inversion Hrun; subst. eexists. split; [reflexivity |].
      apply TB_bound. exact Hlt.
    + destruct (Z.eqb_spec e (EADDRINUSE P)) as [He | He].
      * subst e. rewrite next_port in Hrun by assumption.
        apply IH in Hrun; [| lia | lia].
        destruct Hrun as (evs & Htrace & Hspec). cbn [trace] in Htrace.
        exists (bind_attempt P (sockfd this) port hp r (EADDRINUSE P) ++ evs).
        split; [rewrite Htrace, app_assoc; reflexivity |].
        apply TB_in_use; assumption.
      * inversion Hrun; subst. eexists. split; [reflexivity |].
        apply TB_fatal; assumption.
  - rewrite TryBindHost_loop_exit in Hrun by exact Hge.
    inversion Hrun; subst. exists []. split; [symmetry; apply app_nil_r |].
    apply TB_exhausted. exact Hge.
Qed.

(** When every bind is refused with address-in-use the loop returns the
    sentinel. *)
Lemma TryBindHost_loop_all_in_use (fuel : nat) :
  all_in_use P os (sockfd this) ->
  forall (port : Z) (w : world),
    INT_MIN <= port ->
    (Z.to_nat (end_port - port) < fuel)%nat ->
    fst (TryBindHost_loop P os fuel this port end_port w) = Done (-1).
Proof.
  intros Hbusy. induction fuel as [| fuel IH]; intros port w Hmin Hfuel; [lia |].
  destruct (Z_lt_le_dec port end_port) as [Hlt | Hge].
  - destruct (TryBindHost_loop_step fuel port w Hlt) as (hp & r & e & Hstep & Hos).
    cbv zeta in Hstep. rewrite Hstep. clear Hstep.
    match type of Hos with _ = os_bind os ?w1 ?f ?a =>
      destruct (Hbusy w1 a) as [Hr He] end.
    rewrite <- Hos in Hr, He. cbn [fst snd] in Hr, He.
    apply Z.eqb_neq in Hr. rewrite Hr.
    apply Z.eqb_eq in He. rewrite He.
    rewrite next_port by assumption. apply IH; lia.
  - rewrite TryBindHost_loop_exit by exact Hge. reflexivity.
Qed.

End TryBindHost.

Lemma failed_in_use_app (P : platform) (fd q : Z) (earlier evs : list event) :
  failed_in_use P fd q evs -> failed_in_use P fd q (earlier ++ evs).
Proof.
  intros (hp & r & Hr & Hin). exists hp, r. split; [exact Hr |].
  apply in_or_app. right. exact Hin.
Qed.

Lemma failed_in_use_attempt (P : platform) (fd port : Z) (hp : hostent)
      (r : Z) (evs : list event) :
  r <> 0 ->
  failed_in_use P fd port (bind_attempt P fd port hp r (EADDRINUSE P) ++ evs).
Proof.
  intros Hr. exists hp, r. split; [exact Hr |]. cbn. right. left. reflexivity.
Qed.

Lemma TryBindRange_spec_ending (P : platform) (fd end_port : Z) :
  forall (port : Z) (evs : list event) (res : result Z),
    TryBindRange_spec P fd end_port port evs res ->
    scan_ending P fd end_port port evs res.
Proof.
  intros port evs res Hspec.
  induction Hspec as [port Hge | port hp e Hlt
                      | port hp r evs res Hlt Hr Hspec IH
                      | port hp r e Hlt Hr He]; unfold scan_ending in *.
  - left. split; [reflexivity |]. intros q Hq. lia.
  - right. split; [lia | split].
    + exists hp, e. exists [EvGetHostByName "0.0.0.0" (Some hp)]. reflexivity.
    + intros q Hq. lia.
  - assert (Hearlier : forall bound,
               (forall q, port + 1 <= q < bound -> failed_in_use P fd q evs) ->
               forall q, port <= q < bound ->
                         failed_in_use P fd q
                           (bind_attempt P fd port hp r (EADDRINUSE P) ++ evs)).
    { intros bound Hrest q Hq.
      destruct (Z.eq_dec q port) as [-> | Hne].
      - apply failed_in_use_attempt. exact Hr.
      - apply failed_in_use_app. apply Hrest. lia. }
    destruct res as [p | msg |]; [| | exact IH].
    + destruct IH as [[Hp Hrest] | (Hp & (hp' & e' & Hlast) & Hrest)].
      * left. split; [exact Hp |]. apply Hearlier. exact Hrest.
      * right. split; [lia | split].
        -- exists hp', e'. auto with trace_db.
        -- apply Hearlier. exact Hrest.
    + destruct IH as (p & hp' & r' & e' & Hp & Hr' & He' & Hlast & Hmsg & Hrest).
      exists p, hp', r', e'.
      split; [lia | split; [exact Hr' | split; [exact He' | split]]].
      * auto with trace_db.
      * split; [exact Hmsg |]. apply Hearlier. exact Hrest.
  - exists port, hp, r, e.
    split; [lia | split; [exact Hr | split; [exact He | split]]].
    + exists [EvGetHostByName "0.0.0.0" (Some hp)]. reflexivity.
    + split; [reflexivity |]. intros q Hq. lia.
Qed.



(** ** [TCPSocket::SendAll] *)

Section SendAll.

Variable P : platform.
Variable os : OS.
Variable this : TCPSocket.
Variable buf_ : list byte.
Variable len : Z.

Hypothesis len_size_t : is_size_t len.

Lemma SendAll_loop_exit (fuel : nat) (buf ndone : Z) (w : world) :
  len <= ndone ->
  SendAll_loop P os (S fuel) this buf_ len buf ndone w = (Done ndone, w).
Proof.
  intros Hge. cbn [SendAll_loop].
  settle (ndone <? len) false.
  reflexivity.
Qed.

(** One turn of the loop with bytes left to send: the request starts
    [ndone] bytes into the buffer and asks for [len - ndone] bytes. *)
Lemma SendAll_loop_step (fuel : nat) (ndone : Z) (w : world) :
  0 <= ndone < len ->
  exists r e,
    let w1 := record w e (send_call (sockfd this) buf_ len ndone r e) in
    os_send os w (sockfd this) (len - ndone)
            (read_at buf_ ndone (len - ndone)) 0 = (r, e)
    /\ SendAll_loop P os (S fuel) this buf_ len ndone ndone w
       = (if r =? -1
          then if would_block P e
               then (Done ndone, w1)
               else (Abort ("Socket SendAll Error:" ++ strerror P e), w1)
          else SendAll_loop P os fuel this buf_ len (ndone + r)
                            (to_size_t (ndone + r)) w1).
Proof.
  intros Hlt. cbn [SendAll_loop].
  settle (ndone <? len) true.
  rewrite to_size_t_to_ssize_t by (unfold is_size_t in *; lia).
  destruct (os_send os w (sockfd this) (len - ndone)
                    (read_at buf_ ndone (len - ndone)) 0) as [r e] eqn:Hos.
  exists r, e. split; [reflexivity |].
  rewrite (bind_Done _ _ _ _ _ (sys_send_run os _ _ _ _ _ w r e Hos)).
  fold (send_call (sockfd this) buf_ len ndone r e).
  unfold bind at 1, get_errno. cbn [errno record].
  destruct (r =? -1); cbn [andb].
  - destruct (would_block P e); [reflexivity |].
    apply bind_Abort. apply Socket_Error_aborts.
  - reflexivity.
Qed.

Lemma next_ndone (ndone r : Z) :
  0 <= ndone -> 0 <= r <= len - ndone -> to_size_t (ndone + r) = ndone + r.
Proof.
  intros H0 Hr. apply to_size_t_id. unfold is_size_t in *. lia.
Qed.

(** Whatever the fuel, a run that ends did what the specification says. *)
Lemma SendAll_loop_spec (fuel : nat) :
  send_contract os ->
  forall (ndone : Z) (w w' : world) (res : result Z),
    0 <= ndone <= len ->
    SendAll_loop P os fuel this buf_ len ndone ndone w = (res, w') ->
    res <> OutOfFuel ->
    exists evs,
      trace w' = trace w ++ evs
      /\ SendAll_spec P (sockfd this) buf_ len ndone evs res.
Proof.
  intros Hcontract.
  induction fuel as [| fuel IH]; intros ndone w w' res Hnd Hrun Hres.
  - inversion Hrun; subst. contradiction.
  - destruct (Z_lt_le_dec ndone len) as [Hlt | Hge].
    + destruct (SendAll_loop_step fuel ndone w ltac:(lia)) as (r & e & Hos & Hstep).
      cbv zeta in Hstep. rewrite Hstep in Hrun. clear Hstep.
      pose proof (Hcontract w (sockfd this) (len - ndone)
                            (read_at buf_ ndone (len - ndone)) 0 ltac:(lia)) as Hr.
      rewrite Hos in Hr. cbn [fst] in Hr.
      destruct (Z.eqb_spec r (-1)) as [Hfail | Hok].
      * subst r. destruct (would_block P e) eqn:Hwb; inversion Hrun; subst.
        -- eexists. split; [reflexivity |].
           apply SA_would_block; [exact Hlt | exact Hwb].
        -- eexists. split; [reflexivity |].
           apply SA_fatal; [exact Hlt | exact Hwb].
      * rewrite next_ndone in Hrun by lia.
        apply IH in Hrun; [| lia | exact Hres].
        destruct Hrun as (evs & Htrace & Hspec). cbn [trace record] in Htrace.
        exists (send_call (sockfd this) buf_ len ndone r e :: evs).
        split; [rewrite Htrace, <- app_assoc; reflexivity |].
        apply SA_more; [exact Hlt | lia | exact Hspec].
    + rewrite SendAll_loop_exit in Hrun by exact Hge.
      inversion Hrun; subst. exists []. split; [symmetry; apply app_nil_r |].
      replace ndone with len by lia. apply SA_complete.
Qed.

(** When every [send] that does not fail transmits something, as many turns
    as there are bytes left, and one more, are enough. *)
Lemma SendAll_loop_terminates (fuel : nat) :
  send_contract os ->
  send_progress os ->
  forall (ndone : Z) (w : world),
    0 <= ndone <= len ->
    (Z.to_nat (len - ndone) < fuel)%nat ->
    fst (SendAll_loop P os fuel this buf_ len ndone ndone w) <> OutOfFuel.
Proof.
  intros Hcontract Hprogress.
  induction fuel as [| fuel IH]; intros ndone w Hnd Hfuel; [lia |].
  destruct (Z_lt_le_dec ndone len) as [Hlt | Hge].
  - destruct (SendAll_loop_step fuel ndone w ltac:(lia)) as (r & e & Hos & Hstep).
    cbv zeta in Hstep. rewrite Hstep. clear Hstep.
    pose proof (Hcontract w (sockfd this) (len - ndone)
                          (read_at buf_ ndone (len - ndone)) 0 ltac:(lia)) as Hr.
    pose proof (Hprogress w (sockfd this) (len - ndone)
                          (read_at buf_ ndone (len - ndone)) 0 ltac:(lia)) as Hr0.
    rewrite Hos in Hr, Hr0. cbn [fst] in Hr, Hr0.
    destruct (Z.eqb_spec r (-1)) as [Hfail | Hok].
    + destruct (would_block P e); cbn; discriminate.
    + rewrite next_ndone by lia. apply IH; lia.
  - rewrite SendAll_loop_exit by exact Hge. cbn. discriminate.
Qed.

(** When no [send] ever returns -1, a run that ends returns [len]. *)
Lemma SendAll_loop_uninterrupted (fuel : nat) :
  send_contract os ->
  send_never_fails os ->
  forall (ndone : Z) (w w' : world) (res : result Z),
    0 <= ndone <= len ->
    SendAll_loop P os fuel this buf_ len ndone ndone w = (res, w') ->
    res <> OutOfFuel ->
    res = Done len.
Proof.
  intros Hcontract Hnever.
  induction fuel as [| fuel IH]; intros ndone w w' res Hnd Hrun Hres.
  - inversion Hrun; subst. contradiction.
  - destruct (Z_lt_le_dec ndone len) as [Hlt | Hge].
    + destruct (SendAll_loop_step fuel ndone w ltac:(lia)) as (r & e & Hos & Hstep).
      cbv zeta in Hstep. rewrite Hstep in Hrun. clear Hstep.
      pose proof (Hcontract w (sockfd this) (len - ndone)
                            (read_at buf_ ndone (len - ndone)) 0 ltac:(lia)) as Hr.
      pose proof (Hnever w (sockfd this) (len - ndone)
                         (read_at buf_ ndone (len - ndone)) 0 ltac:(lia)) as Hr1.
      rewrite Hos in Hr, Hr1. cbn [fst] in Hr, Hr1.
      replace (r =? -1) with false in Hrun by (symmetry; apply Z.eqb_neq; exact Hr1).
      rewrite next_ndone in Hrun by lia.
      apply IH in Hrun; [exact Hrun | lia | exact Hres].
    + rewrite SendAll_loop_exit in Hrun by exact Hge.
      inversion Hrun; subst. f_equal. lia.
Qed.

End SendAll.

(** What the specification's loop returns is the count transmitted: the
    bytes done before plus what the [send]s of the run transmitted; it never
    exceeds [len]. *)
Lemma SendAll_spec_count (P : platform) (fd : Z) (buf_ : list byte) (len : Z) :
  forall (ndone : Z) (evs : list event) (res : result Z),
    SendAll_spec P fd buf_ len ndone evs res ->
    forall n : Z,
      res = Done n ->
      ndone <= len ->
      n = ndone + sent fd evs /\ n <= len.
Proof.
  intros ndone evs res Hspec.
  induction Hspec as [| ndone r e evs res Hlt Hr Hspec IH
                      | ndone e Hlt Hwb | ndone e Hlt Hwb];
    intros n Hres Hle.
  - inversion Hres; subst. cbn. lia.
  - destruct (IH n Hres ltac:(lia)) as [Hn Hlen].
    split; [| exact Hlen].
    cbn [sent send_call]. rewrite Z.eqb_refl. cbn [andb].
    destruct (Z.ltb_spec 0 r); lia.
  - inversion Hres; subst. cbn. rewrite Z.eqb_refl. cbn. lia.
  - discriminate Hres.
Qed.

(** How the specification's loop ends: with [len]; or with less, after a
    [send] that reported would-block; or aborted, after a [send] that failed
    otherwise. *)
Lemma SendAll_spec_ending (P : platform) (fd : Z) (buf_ : list byte) (len : Z) :
  forall (ndone : Z) (evs : list event) (res : result Z),
    SendAll_spec P fd buf_ len ndone evs res ->
    match res with
    | Done n =>
        n = len
        \/ (n < len
            /\ exists e, would_block P e = true
                         /\ stopped_by (send_call fd buf_ len n (-1) e) evs)
    | Abort msg =>
        exists n e,
          would_block P e = false
          /\ stopped_by (send_call fd buf_ len n (-1) e) evs
          /\ msg = ("Socket SendAll Error:" ++ strerror P e)%string
    | OutOfFuel => False
    end.
Proof.
  intros ndone evs res Hspec.
  induction Hspec as [| ndone r e evs res Hlt Hr Hspec IH
                      | ndone e Hlt Hwb | ndone e Hlt Hwb].
  - left. reflexivity.
  - destruct res as [n | msg |]; [| | exact IH].
    + destruct IH as [Hn | (Hn & e' & Hwb & Hlast)]; [left; exact Hn |].
      right. split; [exact Hn |]. exists e'. split; [exact Hwb |].
      auto with trace_db.
    + destruct IH as (n & e' & Hwb & Hlast & Hmsg).
      exists n, e'. split; [exact Hwb | split; [| exact Hmsg]].
      auto with trace_db.
  - right. split; [exact Hlt |]. exists e. split; [exact Hwb |].
    auto with trace_db.
  - exists ndone, e. split; [exact Hwb | split; [| reflexivity]].
    auto with trace_db.
Qed.


Lemma machine_send_contract (busy : Z) : send_contract (machine busy 2).
Proof. intros w fd n data flags Hn. cbn. lia. Qed.

Lemma machine_send_progress (busy : Z) : send_progress (machine busy 2).
Proof. intros w fd n data flags Hn. cbn. lia. Qed.

Lemma machine_send_never_fails (busy : Z) : send_never_fails (machine busy 2).
Proof. intros w fd n data flags Hn. cbn. lia. Qed.


(** ** [TCPSocket::RecvAll] *)

Lemma write_at_nil (buf : list byte) (off : Z) : write_at buf off [] = buf.
Proof.
  unfold write_at, memcpy. cbn. apply firstn_skipn.
Qed.

Lemma firstn_nonpositive (r : Z) (data : list byte) :
  r <= 0 -> firstn (Z.to_nat r) data = [].
Proof.
  intros Hr. replace (Z.to_nat r) with 0%nat by lia. reflexivity.
Qed.

Lemma received_app (fd : Z) (evs evs' : list event) :
  received fd (evs ++ evs') = received fd evs + received fd evs'.
Proof.
  induction evs as [| ev evs IH]; cbn [app received]; [lia |].
  destruct ev; rewrite IH; lia.
Qed.

Section RecvAll.

Variable P : platform.
Variable os : OS.
Variable this : TCPSocket.
Variable len : Z.

Hypothesis len_size_t : is_size_t len.

Lemma RecvAll_loop_exit (fuel : nat) (buf_ : list byte) (buf ndone : Z)
      (w : world) :
  len <= ndone ->
  RecvAll_loop P os (S fuel) this buf_ len buf ndone w = (Done (ndone, buf_), w).
Proof.
  intros Hge. cbn [RecvAll_loop].
  settle (ndone <? len) false.
  reflexivity.
Qed.

(** One turn of the loop with bytes left to receive: the request asks for
    [len - ndone] bytes, to be stored [ndone] bytes into the buffer. *)
Lemma RecvAll_loop_step (fuel : nat) (buf_ : list byte) (ndone : Z) (w : world) :
  0 <= ndone < len ->
  exists r e got,
    let w1 := record w e (recv_call P (sockfd this) len ndone r e got) in
    let buf_' := write_at buf_ ndone got in
    r = fst (fst (os_recv os w (sockfd this) (len - ndone) (MSG_WAITALL P)))
    /\ (r <= 0 -> got = [])
    /\ RecvAll_loop P os (S fuel) this buf_ len ndone ndone w
       = (if r =? -1
          then if would_block P e
               then (Done (ndone, buf_'), w1)
               else (Abort ("Socket RecvAll Error:" ++ strerror P e), w1)
          else if r =? 0
               then (Done (ndone, buf_'), w1)
               else RecvAll_loop P os fuel this buf_' len (ndone + r)
                                 (to_size_t (ndone + r)) w1).
Proof.
  intros Hlt. cbn [RecvAll_loop].
  settle (ndone <? len) true.
  rewrite to_size_t_id by (unfold is_size_t in *; lia).
  destruct (os_recv os w (sockfd this) (len - ndone) (MSG_WAITALL P))
    as [[r e] data] eqn:Hos.
  exists r, e, (firstn (Z.to_nat r) data).
  split; [reflexivity | split; [apply firstn_nonpositive |]].
  rewrite (bind_Done _ _ _ _ _ (sys_recv_run os _ buf_ ndone _ _ w r e data Hos)).
  fold (recv_call P (sockfd this) len ndone r e (firstn (Z.to_nat r) data)).
  unfold bind at 1, get_errno. cbn [errno record].
  destruct (r =? -1); cbn [andb].
  - destruct (would_block P e); [reflexivity |].
    apply bind_Abort. apply Socket_Error_aborts.
  - unfold bind at 1. cbn [ret]. destruct (r =? 0); reflexivity.
Qed.

(** Whatever the fuel, a run that ends did what the specification says. *)
Lemma RecvAll_loop_spec (fuel : nat) :
  recv_contract os ->
  forall (buf_ : list byte) (ndone : Z) (w w' : world)
         (res : result (Z * list byte)),
    0 <= ndone <= len ->
    RecvAll_loop P os fuel this buf_ len ndone ndone w = (res, w') ->
    res <> OutOfFuel ->
    exists evs,
      trace w' = trace w ++ evs
      /\ ReceiveAll_spec P (sockfd this) len ndone buf_ evs res.
Proof.
  intros Hcontract.
  induction fuel as [| fuel IH]; intros buf_ ndone w w' res Hnd Hrun Hres.
  - inversion Hrun; subst. contradiction.
  - destruct (Z_lt_le_dec ndone len) as [Hlt | Hge].
    + destruct (RecvAll_loop_step fuel buf_ ndone w ltac:(lia))
        as (r & e & got & Hos & Hgot & Hstep).
      cbv zeta in Hstep. rewrite Hstep in Hrun. clear Hstep.
      pose proof (Hcontract w (sockfd this) (len - ndone) (MSG_WAITALL P)
                            ltac:(lia)) as Hr.
      rewrite <- Hos in Hr. clear Hos.
      destruct (Z.eqb_spec r (-1)) as [Hfail | Hok].
      * subst r. rewrite (Hgot ltac:(lia)), write_at_nil in Hrun.
        destruct (would_block P e) eqn:Hwb; inversion Hrun; subst.
        -- eexists. split; [reflexivity |].
           apply RA_would_block; [exact Hlt | exact Hwb].
        -- eexists. split; [reflexivity |].
           apply RA_fatal; [exact Hlt | exact Hwb].
      * destruct (Z.eqb_spec r 0) as [Hzero | Hpos].
        -- subst r. rewrite (Hgot ltac:(lia)), write_at_nil in Hrun.
           inversion Hrun; subst.
           eexists. split; [reflexivity |].
           apply RA_shutdown. exact Hlt.
        -- rewrite to_size_t_id in Hrun by (unfold is_size_t in *; lia).
           apply IH in Hrun; [| lia | exact Hres].
           destruct Hrun as (evs & Htrace & Hspec). cbn [trace record] in Htrace.
           exists (recv_call P (sockfd this) len ndone r e got :: evs).
           split; [rewrite Htrace, <- app_assoc; reflexivity |].
           apply RA_more; [exact Hlt | lia | exact Hspec].
    + rewrite RecvAll_loop_exit in Hrun by exact Hge.
      inversion Hrun; subst. exists []. split; [symmetry; apply app_nil_r |].
      replace ndone with len by lia. apply RA_complete.
Qed.

(** When the peer shuts down after [N] bytes and more than [N] are asked
    for, the loop returns [N]. *)
Lemma RecvAll_loop_peer_closes (w0 : world) (N : Z) (fuel : nat) :
  peer_closes_after os (sockfd this) w0 N ->
  N < len ->
  forall (buf_ : list byte) (ndone : Z) (w : world) (evs : list event),
    trace w = trace w0 ++ evs ->
    received (sockfd this) evs = ndone ->
    0 <= ndone <= N ->
    (Z.to_nat (N - ndone) < fuel)%nat ->
    exists buf_', fst (RecvAll_loop P os fuel this buf_ len ndone ndone w)
                  = Done (N, buf_').
Proof.
  intros Hpeer HN.
  induction fuel as [| fuel IH]; intros buf_ ndone w evs Htrace Hrecv Hnd Hfuel;
    [lia |].
  destruct (RecvAll_loop_step fuel buf_ ndone w ltac:(lia))
    as (r & e & got & Hos & _ & Hstep).
  cbv zeta in Hstep. rewrite Hstep. clear Hstep.
  destruct (Hpeer evs (errno w) (len - ndone) (MSG_WAITALL P) ltac:(lia))
    as [Hmore Hclosed].
  rewrite <- Htrace in Hmore, Hclosed.
  replace {| errno := errno w; trace := trace w |} with w in Hmore, Hclosed
    by (destruct w; reflexivity).
  rewrite <- Hos, Hrecv in Hmore, Hclosed. clear Hos.
  destruct (Z_lt_le_dec ndone N) as [Hlt | Hge].
  - specialize (Hmore Hlt).
    settle (r =? -1) false.
    settle (r =? 0) false.
    rewrite to_size_t_id by (unfold is_size_t in *; lia).
    apply (IH _ _ _ (evs ++ [recv_call P (sockfd this) len ndone r e got])).
    + cbn [trace record]. rewrite Htrace, app_assoc. reflexivity.
    + rewrite received_app, Hrecv. cbn [received recv_call].
      rewrite Z.eqb_refl. cbn [andb].
      settle (0 <? r) true. lia.
    + lia.
    + lia.
  - specialize (Hclosed Hge). subst r. cbn.
    replace ndone with N by lia. eexists. reflexivity.
Qed.

End RecvAll.

(** A [recv] that delivers nothing ends the loop, so it cannot go on for
    more turns than there are bytes to receive, and one. *)
Lemma RecvAll_loop_ends (P : platform) (os : OS) (this : TCPSocket) (len : Z)
      (fuel : nat) :
  is_size_t len ->
  recv_contract os ->
  forall (buf_ : list byte) (ndone : Z) (w : world),
    0 <= ndone <= len ->
    (Z.to_nat (len - ndone) < fuel)%nat ->
    fst (RecvAll_loop P os fuel this buf_ len ndone ndone w) <> OutOfFuel.
Proof.
  intros Hlen Hcontract.
  induction fuel as [| fuel IH]; intros buf_ ndone w Hnd Hfuel; [lia |].
  destruct (Z_lt_le_dec ndone len) as [Hlt | Hge].
  - destruct (RecvAll_loop_step P os this len Hlen fuel buf_ ndone w ltac:(lia))
      as (r & e & got & Hos & _ & Hstep).
    cbv zeta in Hstep. rewrite Hstep. clear Hstep.
    pose proof (Hcontract w (sockfd this) (len - ndone) (MSG_WAITALL P)
                          ltac:(lia)) as Hr.
    rewrite <- Hos in Hr. clear Hos.
    destruct (Z.eqb_spec r (-1)) as [Hfail | Hok].
    + destruct (would_block P e); cbn; discriminate.
    + destruct (Z.eqb_spec r 0) as [Hzero | Hpos]; [cbn; discriminate |].
      rewrite to_size_t_id by (unfold is_size_t in *; lia).
      apply IH; lia.
  - rewrite (RecvAll_loop_exit P os this len fuel buf_ ndone ndone w Hge).
    cbn. discriminate.
Qed.

(** What the specification's loop returns is the count received: the bytes
    done before plus what the [recv]s of the run delivered; it never exceeds
    [len]. *)
Lemma ReceiveAll_spec_count (P : platform) (fd len : Z) :
  forall (ndone : Z) (buf : list byte) (evs : list event)
         (res : result (Z * list byte)),
    ReceiveAll_spec P fd len ndone buf evs res ->
    forall (n : Z) (buf' : list byte),
      res = Done (n, buf') ->
      ndone <= len ->
      n = ndone + received fd evs /\ n <= len.
Proof.
  intros ndone buf evs res Hspec.
  induction Hspec as [buf | ndone r e buf data evs res Hlt Hr Hspec IH
                      | ndone e buf Hlt | ndone e buf Hlt Hwb
                      | ndone e buf Hlt Hwb];
    intros n buf' Hres Hle.
  - inversion Hres; subst. cbn. lia.
  - destruct (IH n buf' Hres ltac:(lia)) as [Hn Hlen].
    split; [| exact Hlen].
    cbn [received recv_call]. rewrite Z.eqb_refl. cbn [andb].
    settle (0 <? r) true. lia.
  - inversion Hres; subst. cbn. rewrite Z.eqb_refl. cbn. lia.
  - inversion Hres; subst. cbn. rewrite Z.eqb_refl. cbn. lia.
  - discriminate Hres.
Qed.

(** How the specification's loop ends: with [len]; or with less, after a
    [recv] that returned 0 or reported would-block; or aborted, after a
    [recv] that failed otherwise. *)
Lemma ReceiveAll_spec_ending (P : platform) (fd len : Z) :
  forall (ndone : Z) (buf : list byte) (evs : list event)
         (res : result (Z * list byte)),
    ReceiveAll_spec P fd len ndone buf evs res ->
    match res with
    | Done (n, _) =>
        n = len
        \/ (n < len
            /\ exists e,
                stopped_by (recv_call P fd len n 0 e []) evs
                \/ (would_block P e = true
                    /\ stopped_by (recv_call P fd len n (-1) e []) evs))
    | Abort msg =>
        exists n e,
          would_block P e = false
          /\ stopped_by (recv_call P fd len n (-1) e []) evs
          /\ msg = ("Socket RecvAll Error:" ++ strerror P e)%string
    | OutOfFuel => False
    end.
Proof.
  intros ndone buf evs res Hspec.
  induction Hspec as [buf | ndone r e buf data evs res Hlt Hr Hspec IH
                      | ndone e buf Hlt | ndone e buf Hlt Hwb
                      | ndone e buf Hlt Hwb].
  - left. reflexivity.
  - destruct res as [[n buf'] | msg |]; [| | exact IH].
    + destruct IH as [Hn | (Hn & e' & Hlast)]; [left; exact Hn |].
      right. split; [exact Hn |]. exists e'.
      destruct Hlast as [Hlast | [Hwb Hlast]].
      * left. auto with trace_db.
      * right. split; [exact Hwb |]. auto with trace_db.
    + destruct IH as (n & e' & Hwb & Hlast & Hmsg).
      exists n, e'. split; [exact Hwb | split; [| exact Hmsg]].
      auto with trace_db.
  - right. split; [exact Hlt |]. exists e. left. auto with trace_db.
  - right. split; [exact Hlt |]. exists e. right.
    split; [exact Hwb | apply stopped_by_last].
  - exists ndone, e. split; [exact Hwb | split; [| reflexivity]].
    auto with trace_db.
Qed.


Lemma machine_peer_closes_after_hello (busy : Z) :
  peer_closes_after (machine busy 2) 3 fresh_world 5.
Proof.
  intros evs e n flags Hn.
  cbn [machine os_recv fst snd trace fresh_world app].
  rewrite length_firstn, length_skipn.
  change (List.length hello) with 5%nat.
  split; intros H; lia.
Qed.


(** * Further properties of the header *)

(** ** [SockAddr::Set]: ports outside 16 bits, and the address stored *)

Lemma ntohs_htons_wraps (P : platform) (port : Z) :
  ntohs P (htons P port) = port mod 65536.
Proof.
  assert (Hsame : htons P port = htons P (port mod 65536)).
  { unfold htons, to_uint16, wrap_unsigned. change (2 ^ 16) with 65536.
    rewrite Z.mod_mod by lia. reflexivity. }
  rewrite Hsame. apply ntohs_htons.
  pose proof (Z.mod_pos_bound port 65536 ltac:(lia)). lia.
Qed.

(** X1.  [Set] keeps the low 16 bits of the port it is given: for any port,
    also one below 0 or above 65535, and a host that resolves, [port()] of
    the address is the port modulo 65536. *)
Theorem Set_port_wraps :
  forall (P : platform) (os : OS) (host : string) (port : Z) (w : world),
    os_gethostbyname os w host <> None ->
    exists a w',
      SockAddr_Set P os host port w = (Done a, w')
      /\ SockAddr_port P a = port mod 65536.
Proof.
  intros P os host port w Hres.
  unfold SockAddr_Set, bind, sys_gethostbyname.
  destruct (os_gethostbyname os w host) as [hp |]; [| contradiction].
  cbn. eexists. eexists. split; [reflexivity |].
  unfold SockAddr_port. cbn. apply ntohs_htons_wraps.
Qed.

Lemma Set_port_wraps_witness :
  exists a w',
    SockAddr_Set linux (machine 0 2) "localhost" 65616 fresh_world = (Done a, w')
    /\ SockAddr_port linux a = 65616 mod 65536.
Proof.
  apply (Set_port_wraps linux (machine 0 2) "localhost" 65616 fresh_world).
  discriminate.
Defined.

(** X2.  What [Set] does with the answer of [gethostbyname], which it asks
    once; [errno] is left as that call set it.  Without an answer [Set]
    aborts with the message that names the host.  With an IPv4 answer it
    stores the family [AF_INET] and the four bytes of the first address of
    the list, leaves the padding zero, and does not look at the other
    addresses. *)
Theorem Set_stores_first_address :
  forall (P : platform) (os : OS) (host : string) (port : Z) (w : world),
    (os_gethostbyname os w host = None ->
     SockAddr_Set P os host port w
     = (Abort ("cannot obtain address of " ++ host),
        {| errno := os_gethostbyname_errno os w host;
           trace := trace w ++ [EvGetHostByName host None] |}))
    /\ (forall hp a b c d others,
           os_gethostbyname os w host = Some hp ->
           h_length hp = 4 ->
           h_addr_list hp = [a; b; c; d] :: others ->
           exists sa,
             SockAddr_Set P os host port w
             = (Done sa,
                {| errno := os_gethostbyname_errno os w host;
                   trace := trace w ++ [EvGetHostByName host (Some hp)] |})
             /\ sin_family (addr sa) = AF_INET P
             /\ sin_addr (addr sa) = [a; b; c; d]
             /\ sin_zero (addr sa) = repeat x00 8).
Proof.
  intros P os host port w. split.
  - intros Hnone. unfold SockAddr_Set, bind, sys_gethostbyname.
    rewrite Hnone. reflexivity.
  - intros hp a b c d others Hsome Hlen Hlist.
    unfold SockAddr_Set, bind, sys_gethostbyname. rewrite Hsome.
    cbn [not_null utils_Check ret deref].
    eexists. split; [reflexivity |].
    unfold fill_sockaddr. rewrite Hlen, Hlist.
    cbn. repeat split; reflexivity.
Qed.

Lemma Set_stores_first_address_witness :
  SockAddr_Set linux (machine 0 2) "nowhere" 9091 fresh_world
  = (Abort ("cannot obtain address of " ++ "nowhere"),
     {| errno := os_gethostbyname_errno (machine 0 2) fresh_world "nowhere";
        trace := trace fresh_world ++ [EvGetHostByName "nowhere" None] |})
  /\ exists sa,
      SockAddr_Set linux (machine 0 2) "localhost" 9091 fresh_world
      = (Done sa,
         {| errno := os_gethostbyname_errno (machine 0 2) fresh_world "localhost";
            trace := trace fresh_world
                     ++ [EvGetHostByName "localhost"
                           (Some (ipv4_hostent x7f x00 x00 x01))] |})
      /\ sin_family (addr sa) = AF_INET linux
      /\ sin_addr (addr sa) = [x7f; x00; x00; x01]
      /\ sin_zero (addr sa) = repeat x00 8.
Proof.
  split.
  - apply (proj1 (Set_stores_first_address linux (machine 0 2) "nowhere" 9091
                    fresh_world)).
    reflexivity.
  - apply (proj2 (Set_stores_first_address linux (machine 0 2) "localhost" 9091
                    fresh_world) (ipv4_hostent x7f x00 x00 x01) x7f x00 x00 x01 []).
    + reflexivity.
    + reflexivity.
    + reflexivity.
Defined.

(** ** [Socket::Bind] and [TCPSocket::Create] *)

(** X3.  [Bind] issues one [bind] on the given address and aborts whenever
    that returns -1, address-in-use included: it does not look at [errno]
    except to print it.  Any other return value makes it return normally. *)
Theorem Bind_any_failure_is_fatal :
  forall (P : platform) (os : OS) (this : Socket) (a : SockAddr) (w : world)
         (r e : Z),
    os_bind os w (sockfd this) (addr a) = (r, e) ->
    Socket_Bind P os this a w
    = (if r =? -1
       then Abort ("Socket Bind Error:" ++ strerror P e)
       else Done tt,
       record w e (EvBind (sockfd this) (addr a) r e)).
Proof.
  intros P os this a w r e Hos.
  unfold Socket_Bind. rewrite (bind_Done _ _ _ _ _ (sys_bind_run os _ _ w r e Hos)).
  destruct (r =? -1); [apply Socket_Error_aborts | reflexivity].
Qed.

Lemma Bind_any_failure_is_fatal_witness :
  Socket_Bind linux (machine 1 2) (TCPSocket_of 3)
              {| addr := fill_sockaddr linux (ipv4_hostent x00 x00 x00 x00) 9000 |}
              fresh_world
  = (if -1 =? -1
     then Abort ("Socket Bind Error:" ++ strerror linux (EADDRINUSE linux))
     else Done tt,
     record fresh_world (EADDRINUSE linux)
            (EvBind (sockfd (TCPSocket_of 3))
                    (addr {| addr := fill_sockaddr linux
                                       (ipv4_hostent x00 x00 x00 x00) 9000 |})
                    (-1) (EADDRINUSE linux))).
Proof.
  apply (Bind_any_failure_is_fatal linux (machine 1 2) (TCPSocket_of 3)).
  reflexivity.
Defined.

(** X4.  [Create] asks for a [PF_INET] stream socket whatever [af] it is
    given, and whatever the handle held before: what it does depends on
    neither.  It issues that one call and no [close], so a descriptor the
    handle held is dropped, not closed.  It aborts when [socket] returns
    [INVALID_SOCKET] and otherwise leaves the handle on the new
    descriptor. *)
Theorem Create_ignores_af_and_handle :
  forall (P : platform) (os : OS) (this this' : TCPSocket) (af af' : Z)
         (w : world) (r e : Z),
    os_socket os w (PF_INET P) (SOCK_STREAM P) 0 = (r, e) ->
    TCPSocket_Create P os this af w = TCPSocket_Create P os this' af' w
    /\ TCPSocket_Create P os this af w
       = (if r =? INVALID_SOCKET
          then Abort ("Socket Create Error:" ++ strerror P e)
          else Done (TCPSocket_of r),
          record w e (EvSocket (PF_INET P) (SOCK_STREAM P) 0 r e)).
Proof.
  intros P os this this' af af' w r e Hos.
  split; [reflexivity |].
  unfold TCPSocket_Create, bind at 1, sys_socket. rewrite Hos.
  cbn [sockfd]. destruct (r =? INVALID_SOCKET).
  - apply bind_Abort. apply Socket_Error_aborts.
  - reflexivity.
Qed.

Lemma Create_ignores_af_and_handle_witness :
  TCPSocket_Create linux (machine 0 2) (TCPSocket_of 7) 10 fresh_world
  = TCPSocket_Create linux (machine 0 2) TCPSocket_default 2 fresh_world
  /\ TCPSocket_Create linux (machine 0 2) (TCPSocket_of 7) 10 fresh_world
     = (if 3 =? INVALID_SOCKET
        then Abort ("Socket Create Error:" ++ strerror linux 0)
        else Done (TCPSocket_of 3),
        record fresh_world 0 (EvSocket (PF_INET linux) (SOCK_STREAM linux) 0 3 0)).
Proof.
  apply (Create_ignores_af_and_handle linux (machine 0 2)).
  reflexivity.
Defined.

(** ** [TCPSocket::Accept] followed by [Socket::Close] *)

(** X5.  A handle that [Accept] returns holds a descriptor other than
    [INVALID_SOCKET]: [Close] on it succeeds once, with one [close] on the
    accepted descriptor, and a second [Close] aborts. *)
Theorem Accept_then_Close :
  forall (P : platform) (os : OS) (this sock : TCPSocket) (w w1 : world),
    TCPSocket_Accept P os this w = (Done sock, w1) ->
    sockfd sock <> INVALID_SOCKET
    /\ exists closed w2 r e msg,
        Socket_Close P os sock w1 = (Done closed, w2)
        /\ sockfd closed = INVALID_SOCKET
        /\ trace w2 = trace w ++ [EvAccept (sockfd this) (sockfd sock)
                                           (errno w1);
                                  EvClose (sockfd sock) r e]
        /\ Socket_Close P os closed w2 = (Abort msg, w2).
Proof.
  intros P os this sock w w1 Haccept.
  unfold TCPSocket_Accept, bind at 1, sys_accept in Haccept.
  destruct (os_accept os w (sockfd this)) as [newfd e0] eqn:Hos.
  destruct (newfd =? INVALID_SOCKET) eqn:Hfd.
  - rewrite (bind_Abort _ _ _ _ _ (Socket_Error_aborts P "Accept" _)) in Haccept.
    discriminate Haccept.
  - cbn in Haccept. inversion Haccept; subst. clear Haccept.
    apply Z.eqb_neq in Hfd. split; [exact Hfd |].
    unfold Socket_Close. cbn [sockfd TCPSocket_of].
    settle (newfd =? INVALID_SOCKET) false. cbn [negb].
    unfold bind at 1, sys_close.
    destruct (os_close os _ newfd) as [r e] eqn:Hclose.
    do 5 eexists. split; [reflexivity |].
    split; [reflexivity |]. split.
    + cbn [trace record errno]. rewrite <- app_assoc. reflexivity.
    + cbn [sockfd Z.eqb INVALID_SOCKET Pos.eqb negb].
      apply bind_Abort. apply Socket_Error_aborts.
Qed.

Lemma Accept_then_Close_witness :
  sockfd (TCPSocket_of 4) <> INVALID_SOCKET
  /\ exists closed w2 r e msg,
      Socket_Close linux pending (TCPSocket_of 4)
                   (record fresh_world 0 (EvAccept 3 4 0))
      = (Done closed, w2)
      /\ sockfd closed = INVALID_SOCKET
      /\ trace w2 = trace fresh_world
                    ++ [EvAccept (sockfd (TCPSocket_of 3)) (sockfd (TCPSocket_of 4))
                                 (errno (record fresh_world 0 (EvAccept 3 4 0)));
                        EvClose (sockfd (TCPSocket_of 4)) r e]
      /\ Socket_Close linux pending closed w2 = (Abort msg, w2).
Proof.
  apply (Accept_then_Close linux pending (TCPSocket_of 3) (TCPSocket_of 4)
                           fresh_world).
  reflexivity.
Defined.

(** ** [Socket::TryBindHost]: how many calls *)

Lemma TryBindRange_spec_calls (P : platform) (fd end_port : Z) :
  forall (port : Z) (evs : list event) (res : result Z),
    TryBindRange_spec P fd end_port port evs res ->
    port <= end_port ->
    Z.of_nat (List.length (filter is_bind evs)) <= end_port - port
    /\ List.length evs = (2 * List.length (filter is_bind evs))%nat.
Proof.
  intros port evs res Hspec.
  induction Hspec as [port Hge | port hp e Hlt
                      | port hp r evs res Hlt Hr Hspec IH
                      | port hp r e Hlt Hr He]; intros Hle.
  - cbn. lia.
  - cbn. lia.
  - destruct (IH ltac:(lia)) as [Hcount Hpairs].
    cbn [bind_attempt app filter is_bind List.length]. lia.
  - cbn. lia.
Qed.

(** What the specification's scan does from [port] on is a run of attempts
    on the ports [port], [port + 1], ..., each one the resolution of
    ["0.0.0.0"] followed by the bind; there are no more attempts than
    candidates. *)
Lemma TryBindRange_spec_attempts (P : platform) (fd end_port : Z) :
  forall (port : Z) (evs : list event) (res : result Z),
    TryBindRange_spec P fd end_port port evs res ->
    port <= end_port ->
    exists attempts,
      evs = scan_events P fd port attempts
      /\ Z.of_nat (List.length attempts) <= end_port - port.
Proof.
  intros port evs res Hspec.
  induction Hspec as [port Hge | port hp e Hlt
                      | port hp r evs res Hlt Hr Hspec IH
                      | port hp r e Hlt Hr He]; intros Hle.
  - exists []. cbn. split; [reflexivity | lia].
  - exists [(hp, 0, e)]. cbn [scan_events List.length].
    split; [symmetry; apply app_nil_r | lia].
  - destruct (IH ltac:(lia)) as (attempts & Hevs & Hcount).
    exists ((hp, r, EADDRINUSE P) :: attempts). cbn [scan_events List.length].
    split; [rewrite Hevs; reflexivity | lia].
  - exists [(hp, r, e)]. cbn [scan_events List.length].
    split; [symmetry; apply app_nil_r | lia].
Qed.

(** X6.  With an empty or inverted range [TryBindHost] returns -1 without
    any call, not even the resolution of ["0.0.0.0"].  Otherwise what it
    issues is a run of attempts on the ports [start_port],
    [start_port + 1], ..., at most [end_port - start_port] of them, and each
    attempt is a resolution of ["0.0.0.0"] followed by the bind of that port:
    the name is resolved anew before every bind, and nothing else is
    called. *)
Theorem TryBindHost_call_bound :
  forall (P : platform) (os : OS) (fuel : nat) (this : Socket)
         (start_port end_port : Z) (w : world),
    (end_port <= start_port ->
     Socket_TryBindHost P os (S fuel) this start_port end_port w = (Done (-1), w))
    /\ (is_int start_port ->
        is_int end_port ->
        start_port <= end_port ->
        resolves os "0.0.0.0" ->
        (Z.to_nat (end_port - start_port) < fuel)%nat ->
        exists evs attempts,
          trace (snd (Socket_TryBindHost P os fuel this start_port end_port w))
          = trace w ++ evs
          /\ evs = scan_events P (sockfd this) start_port attempts
          /\ Z.of_nat (List.length attempts) <= end_port - start_port
          /\ Z.of_nat (List.length (filter is_bind evs)) <= end_port - start_port
          /\ List.length evs = (2 * List.length (filter is_bind evs))%nat).
Proof.
  intros P os fuel this start_port end_port w. split.
  - intros Hempty. unfold Socket_TryBindHost. cbn [TryBindHost_loop].
    settle (start_port <? end_port) false. reflexivity.
  - intros Hstart Hend Hle Hres Hfuel.
    unfold Socket_TryBindHost.
    destruct (TryBindHost_loop P os fuel this start_port end_port w)
      as [res w'] eqn:Hrun.
    assert (Hmin : INT_MIN <= start_port) by (unfold is_int in Hstart; lia).
    destruct (TryBindHost_loop_spec P os this end_port Hres Hend fuel
                start_port w w' res Hmin Hfuel Hrun) as (evs & Htrace & Hspec).
    destruct (TryBindRange_spec_attempts P (sockfd this) end_port start_port
                evs res Hspec Hle) as (attempts & Hevs & Hcount).
    exists evs, attempts.
    split; [exact Htrace | split; [exact Hevs | split; [exact Hcount |]]].
    apply (TryBindRange_spec_calls P (sockfd this) end_port start_port evs res
             Hspec Hle).
Qed.

Lemma TryBindHost_call_bound_witness :
  exists evs attempts,
    trace (snd (Socket_TryBindHost linux (machine 9 2) 10 (TCPSocket_of 3)
                                   9000 9003 fresh_world))
    = trace fresh_world ++ evs
    /\ evs = scan_events linux (sockfd (TCPSocket_of 3)) 9000 attempts
    /\ Z.of_nat (List.length attempts) <= 9003 - 9000
    /\ Z.of_nat (List.length (filter is_bind evs)) <= 9003 - 9000
    /\ List.length evs = (2 * List.length (filter is_bind evs))%nat.
Proof.
  apply (proj2 (TryBindHost_call_bound linux (machine 9 2) 10 (TCPSocket_of 3)
                                       9000 9003 fresh_world)).
  - unfold is_int, INT_MIN, INT_MAX. lia.
  - unfold is_int, INT_MIN, INT_MAX. lia.
  - lia.
  - intros w. cbn. discriminate.
  - vm_compute. lia.
Defined.

(** ** [TCPSocket::SendAll]: what goes out, and a [send] that takes nothing *)

Lemma firstn_add {A : Type} (a b : nat) (l : list A) :
  firstn (a + b) l = firstn a l ++ firstn b (skipn a l).
Proof.
  revert l. induction a as [| a IH]; intros l; [reflexivity |].
  destruct l as [| x l]; cbn.
  - rewrite firstn_nil. reflexivity.
  - rewrite IH. reflexivity.
Qed.

Section SendAllBytes.

Variable P : platform.
Variable os : OS.
Variable this : TCPSocket.
Variable buf_ : list byte.
Variable len : Z.

Hypothesis len_size_t : is_size_t len.

(** Through a run, from any loop position: what the calls of the run handed
    over is the part of the buffer that starts at [ndone] and has the length
    the calls report. *)
Lemma SendAll_loop_bytes (fuel : nat) :
  send_contract os ->
  forall (ndone : Z) (w w' : world) (res : result Z),
    0 <= ndone <= len ->
    SendAll_loop P os fuel this buf_ len ndone ndone w = (res, w') ->
    exists evs,
      trace w' = trace w ++ evs
      /\ 0 <= sent (sockfd this) evs
      /\ ndone + sent (sockfd this) evs <= len
      /\ transmitted (sockfd this) evs
         = firstn (Z.to_nat (sent (sockfd this) evs))
                  (skipn (Z.to_nat ndone) buf_)
      /\ (forall n, res = Done n -> n = ndone + sent (sockfd this) evs).
Proof.
  intros Hcontract.
  induction fuel as [| fuel IH]; intros ndone w w' res Hnd Hrun.
  - inversion Hrun; subst. exists []. cbn.
    rewrite app_nil_r. repeat split; try lia. intros n Hn. discriminate Hn.
  - destruct (Z_lt_le_dec ndone len) as [Hlt | Hge].
    + destruct (SendAll_loop_step P os this buf_ len len_size_t fuel ndone w
                  ltac:(lia)) as (r & e & Hos & Hstep).
      cbv zeta in Hstep. rewrite Hstep in Hrun. clear Hstep.
      pose proof (Hcontract w (sockfd this) (len - ndone)
                            (read_at buf_ ndone (len - ndone)) 0 ltac:(lia)) as Hr.
      rewrite Hos in Hr. cbn [fst] in Hr.
      destruct (Z.eqb_spec r (-1)) as [Hfail | Hok].
      * subst r.
        exists [send_call (sockfd this) buf_ len ndone (-1) e].
        assert (Hw' : w' = record w e (send_call (sockfd this) buf_ len ndone (-1) e)).
        { destruct (would_block P e); inversion Hrun; reflexivity. }
        subst w'. cbn [trace record sent transmitted send_call].
        rewrite Z.eqb_refl. cbn.
        repeat split; try lia.
        intros n Hn. subst res.
        destruct (would_block P e); inversion Hrun. lia.
      * rewrite (next_ndone len len_size_t) in Hrun by lia.
        apply IH in Hrun; [| lia].
        destruct Hrun as (evs & Htrace & Hpos & Hle & Hbytes & Hres).
        cbn [trace record] in Htrace.
        exists (send_call (sockfd this) buf_ len ndone r e :: evs).
        assert (Hsent : sent (sockfd this)
                             (send_call (sockfd this) buf_ len ndone r e :: evs)
                        = r + sent (sockfd this) evs).
        { cbn [sent send_call]. rewrite Z.eqb_refl. cbn [andb].
          destruct (Z.ltb_spec 0 r); lia. }
        rewrite Hsent.
        split; [rewrite Htrace, <- app_assoc; reflexivity |].
        split; [lia |]. split; [lia |]. split.
        -- cbn [transmitted send_call]. rewrite Z.eqb_refl, Hbytes.
           unfold read_at. rewrite firstn_firstn.
           replace (Init.Nat.min (Z.to_nat r) (Z.to_nat (len - ndone)))
             with (Z.to_nat r) by lia.
           rewrite (Z2Nat.inj_add ndone r) by lia.
           rewrite (Nat.add_comm (Z.to_nat ndone)), <- skipn_skipn.
           rewrite (Z2Nat.inj_add r) by lia.
           symmetry. apply firstn_add.
        -- intros n Hn. rewrite (Hres n Hn). lia.
    + rewrite SendAll_loop_exit in Hrun by exact Hge.
      inversion Hrun; subst. exists []. cbn.
      rewrite app_nil_r. repeat split; try lia.
      intros n Hn. inversion Hn. lia.
Qed.

(** A [send] that keeps taking nothing keeps the loop where it is: every
    turn repeats the same request. *)
Lemma SendAll_loop_stalls (fuel : nat) :
  send_stalls os ->
  forall (ndone : Z) (w : world),
    0 <= ndone < len ->
    exists evs,
      SendAll_loop P os fuel this buf_ len ndone ndone w
      = (OutOfFuel, {| errno := errno (snd (SendAll_loop P os fuel this buf_ len
                                                         ndone ndone w));
                       trace := trace w ++ evs |})
      /\ List.length evs = fuel
      /\ Forall (fun ev => exists e,
                     ev = send_call (sockfd this) buf_ len ndone 0 e) evs.
Proof.
  intros Hstall.
  induction fuel as [| fuel IH]; intros ndone w Hnd.
  - exists []. cbn. rewrite app_nil_r. destruct w. auto.
  - destruct (SendAll_loop_step P os this buf_ len len_size_t fuel ndone w Hnd)
      as (r & e & Hos & Hstep).
    cbv zeta in Hstep. rewrite Hstep. clear Hstep.
    pose proof (Hstall w (sockfd this) (len - ndone)
                       (read_at buf_ ndone (len - ndone)) 0 ltac:(lia)) as Hr.
    rewrite Hos in Hr. cbn [fst] in Hr. subst r.
    cbn [Z.eqb]. rewrite Z.add_0_r.
    rewrite to_size_t_id by (unfold is_size_t in *; lia).
    destruct (IH ndone (record w e (send_call (sockfd this) buf_ len ndone 0 e)) Hnd)
      as (evs & Hrun & Hcount & Hsame).
    exists (send_call (sockfd this) buf_ len ndone 0 e :: evs).
    split; [| split].
    + rewrite Hrun at 1. cbn [trace record errno snd].
      rewrite <- app_assoc. reflexivity.
    + cbn. lia.
    + constructor; [exists e; reflexivity | exact Hsame].
Qed.

End SendAllBytes.

(** X7.  Whatever way a run of [SendAll] ends, what its [send]s handed over
    is a prefix of the buffer, in order, without a gap and without a byte
    sent twice; when the run returns [n], exactly the first [n] bytes went
    out. *)
Theorem SendAll_sends_a_prefix :
  forall (P : platform) (os : OS) (fuel : nat) (this : TCPSocket)
         (buf_ : list byte) (len : Z) (w w' : world) (res : result Z),
    is_size_t len ->
    len <= Z.of_nat (List.length buf_) ->
    send_contract os ->
    TCPSocket_SendAll P os fuel this buf_ len w = (res, w') ->
    exists evs,
      trace w' = trace w ++ evs
      /\ transmitted (sockfd this) evs
         = firstn (Z.to_nat (sent (sockfd this) evs)) buf_
      /\ (forall n,
             res = Done n ->
             transmitted (sockfd this) evs = firstn (Z.to_nat n) buf_
             /\ Z.of_nat (List.length (transmitted (sockfd this) evs)) = n).
Proof.
  intros P os fuel this buf_ len w w' res Hlen Hbuf Hcontract Hrun.
  unfold TCPSocket_SendAll in Hrun.
  destruct (SendAll_loop_bytes P os this buf_ len Hlen fuel Hcontract 0 w w' res
              ltac:(unfold is_size_t in Hlen; lia) Hrun)
    as (evs & Htrace & Hpos & Hle & Hbytes & Hres).
  cbn [Z.to_nat skipn] in Hbytes.
  exists evs. split; [exact Htrace | split; [exact Hbytes |]].
  intros n Hn. rewrite (Hres n Hn), Z.add_0_l.
  split; [exact Hbytes |].
  rewrite Hbytes, length_firstn. lia.
Qed.

Lemma SendAll_sends_a_prefix_witness :
  exists evs,
    trace (snd (TCPSocket_SendAll linux (machine 0 2) 6 (TCPSocket_of 3) hello 5
                                  fresh_world))
    = trace fresh_world ++ evs
    /\ transmitted (sockfd (TCPSocket_of 3)) evs
       = firstn (Z.to_nat (sent (sockfd (TCPSocket_of 3)) evs)) hello
    /\ (forall n,
           Done 5 = Done n ->
           transmitted (sockfd (TCPSocket_of 3)) evs = firstn (Z.to_nat n) hello
           /\ Z.of_nat (List.length (transmitted (sockfd (TCPSocket_of 3)) evs)) = n).
Proof.
  apply (SendAll_sends_a_prefix linux (machine 0 2) 6 (TCPSocket_of 3) hello 5
                                fresh_world).
  - unfold is_size_t, SIZE_MAX. lia.
  - cbn. lia.
  - apply machine_send_contract.
  - reflexivity.
Defined.

(** X8.  When [send] keeps accepting the call and transmitting nothing, a
    non-empty [SendAll] never returns: whatever number of turns it is given,
    it spends them all on the same request for the whole buffer.  ([RecvAll]
    returns on a 0 from [recv]; [SendAll] has no such exit.) *)
Theorem SendAll_spins_on_zero :
  forall (P : platform) (os : OS) (fuel : nat) (this : TCPSocket)
         (buf_ : list byte) (len : Z) (w : world),
    is_size_t len ->
    0 < len ->
    send_stalls os ->
    exists evs,
      fst (TCPSocket_SendAll P os fuel this buf_ len w) = OutOfFuel
      /\ trace (snd (TCPSocket_SendAll P os fuel this buf_ len w)) = trace w ++ evs
      /\ List.length evs = fuel
      /\ Forall (fun ev => exists e,
                     ev = send_call (sockfd this) buf_ len 0 0 e) evs.
Proof.
  intros P os fuel this buf_ len w Hlen Hpos Hstall.
  unfold TCPSocket_SendAll.
  destruct (SendAll_loop_stalls P os this buf_ len Hlen fuel Hstall 0 w
              ltac:(lia)) as (evs & Hrun & Hcount & Hsame).
  exists evs. rewrite Hrun. cbn [fst snd trace]. auto.
Qed.

Lemma machine_send_stalls (busy : Z) : send_stalls (machine busy 0).
Proof. intros w fd n data flags Hn. cbn. lia. Qed.

Lemma SendAll_spins_on_zero_witness :
  exists evs,
    fst (TCPSocket_SendAll linux (machine 0 0) 40 (TCPSocket_of 3) hello 5
                           fresh_world) = OutOfFuel
    /\ trace (snd (TCPSocket_SendAll linux (machine 0 0) 40 (TCPSocket_of 3)
                                     hello 5 fresh_world))
       = trace fresh_world ++ evs
    /\ List.length evs = 40%nat
    /\ Forall (fun ev => exists e,
                   ev = send_call (sockfd (TCPSocket_of 3)) hello 5 0 0 e) evs.
Proof.
  apply (SendAll_spins_on_zero linux (machine 0 0) 40 (TCPSocket_of 3) hello 5
                               fresh_world).
  - unfold is_size_t, SIZE_MAX. lia.
  - lia.
  - apply machine_send_stalls.
Defined.

(** ** [TCPSocket::RecvAll]: what ends up in the buffer *)

Lemma write_at_spec (buf data : list byte) (off : Z) :
  0 <= off ->
  write_at buf off data
  = firstn (Z.to_nat off) buf ++ data
    ++ skipn (Z.to_nat off + List.length data) buf.
Proof.
  intros Hoff. unfold write_at, memcpy.
  rewrite Nat2Z.id, firstn_all, skipn_skipn, Nat.add_comm. reflexivity.
Qed.

(** Storing [got] behind the first [a] bytes of a buffer that has room for
    it: the length stays, the first [a] bytes and everything behind [got]
    stay. *)
Lemma overwrite_middle (buf got : list byte) (a : nat) :
  (a + List.length got <= List.length buf)%nat ->
  let buf1 := firstn a buf ++ got ++ skipn (a + List.length got) buf in
  List.length buf1 = List.length buf
  /\ firstn (a + List.length got) buf1 = firstn a buf ++ got
  /\ forall m, (a + List.length got <= m)%nat -> skipn m buf1 = skipn m buf.
Proof.
  intros Hroom buf1.
  assert (Ha : List.length (firstn a buf) = a)
    by (apply firstn_length_le; lia).
  split; [| split].
  - unfold buf1. rewrite !length_app, Ha, length_skipn. lia.
  - unfold buf1. rewrite app_assoc.
    replace (a + List.length got)%nat
      with (List.length (firstn a buf ++ got) + 0)%nat
      by (rewrite length_app, Ha; lia).
    rewrite firstn_app_2. cbn. apply app_nil_r.
  - intros m Hm. unfold buf1. rewrite app_assoc, skipn_app.
    rewrite skipn_all2 by (rewrite length_app, Ha; lia).
    rewrite length_app, Ha, skipn_skipn. cbn [app].
    f_equal. lia.
Qed.

Section RecvAllBuffer.

Variable P : platform.
Variable os : OS.
Variable this : TCPSocket.
Variable len : Z.

Hypothesis len_size_t : is_size_t len.

(** One turn of the loop, with the bytes [recv] handed over in view. *)
Lemma RecvAll_loop_step_data (fuel : nat) (buf_ : list byte) (ndone : Z)
      (w : world) :
  0 <= ndone < len ->
  let reply := os_recv os w (sockfd this) (len - ndone) (MSG_WAITALL P) in
  let r := fst (fst reply) in
  let e := snd (fst reply) in
  let got := firstn (Z.to_nat r) (snd reply) in
  let w1 := record w e (recv_call P (sockfd this) len ndone r e got) in
  RecvAll_loop P os (S fuel) this buf_ len ndone ndone w
  = (if r =? -1
     then if would_block P e
          then (Done (ndone, write_at buf_ ndone got), w1)
          else (Abort ("Socket RecvAll Error:" ++ strerror P e), w1)
     else if r =? 0
          then (Done (ndone, write_at buf_ ndone got), w1)
          else RecvAll_loop P os fuel this (write_at buf_ ndone got) len
                            (ndone + r) (to_size_t (ndone + r)) w1).
Proof.
  intros Hlt. cbn [RecvAll_loop].
  settle (ndone <? len) true.
  rewrite to_size_t_id by (unfold is_size_t in *; lia).
  destruct (os_recv os w (sockfd this) (len - ndone) (MSG_WAITALL P))
    as [[r e] data] eqn:Hos.
  cbn [fst snd].
  rewrite (bind_Done _ _ _ _ _ (sys_recv_run os _ buf_ ndone _ _ w r e data Hos)).
  fold (recv_call P (sockfd this) len ndone r e (firstn (Z.to_nat r) data)).
  unfold bind at 1, get_errno. cbn [errno record].
  destruct (r =? -1); cbn [andb].
  - destruct (would_block P e); [reflexivity |].
    apply bind_Abort. apply Socket_Error_aborts.
  - unfold bind at 1. cbn [ret]. destruct (r =? 0); reflexivity.
Qed.

(** Through a run, from any loop position with [ndone] bytes in place: the
    bytes delivered are stored one chunk behind the other from [ndone] on,
    and nothing else in the buffer changes. *)
Lemma RecvAll_loop_buffer (fuel : nat) :
  recv_contract os ->
  recv_data_contract os ->
  forall (buf_ : list byte) (ndone : Z) (w w' : world)
         (res : result (Z * list byte)),
    0 <= ndone <= len ->
    len <= Z.of_nat (List.length buf_) ->
    RecvAll_loop P os fuel this buf_ len ndone ndone w = (res, w') ->
    exists evs,
      trace w' = trace w ++ evs
      /\ forall n buf',
          res = Done (n, buf') ->
          n = ndone + Z.of_nat (List.length (delivered (sockfd this) evs))
          /\ n <= len
          /\ buf' = firstn (Z.to_nat ndone) buf_
                    ++ delivered (sockfd this) evs
                    ++ skipn (Z.to_nat n) buf_.
Proof.
  intros Hcontract Hdata.
  induction fuel as [| fuel IH]; intros buf_ ndone w w' res Hnd Hroom Hrun.
  - inversion Hrun; subst. exists []. split; [symmetry; apply app_nil_r |].
    intros n buf' Hn. discriminate Hn.
  - destruct (Z_lt_le_dec ndone len) as [Hlt | Hge].
    + rewrite (RecvAll_loop_step_data fuel buf_ ndone w ltac:(lia)) in Hrun.
      cbv zeta in Hrun.
      pose proof (Hcontract w (sockfd this) (len - ndone) (MSG_WAITALL P)
                            ltac:(lia)) as Hr.
      pose proof (Hdata w (sockfd this) (len - ndone) (MSG_WAITALL P)
                        ltac:(lia)) as Hgot.
      destruct (os_recv os w (sockfd this) (len - ndone) (MSG_WAITALL P))
        as [[r e] data].
      cbn [fst snd] in Hrun, Hr, Hgot.
      set (got := firstn (Z.to_nat r) data) in *.
      assert (Hstop : r <= 0 ->
                      forall n buf',
                        (Done (ndone, write_at buf_ ndone got)
                         : result (Z * list byte)) = Done (n, buf') ->
                        n = ndone
                            + Z.of_nat (List.length
                                          (delivered (sockfd this)
                                             [recv_call P (sockfd this) len ndone
                                                        r e got]))
                        /\ n <= len
                        /\ buf' = firstn (Z.to_nat ndone) buf_
                                  ++ delivered (sockfd this)
                                       [recv_call P (sockfd this) len ndone r e got]
                                  ++ skipn (Z.to_nat n) buf_).
      { intros Hr0 n buf' Hn. inversion Hn; subst n buf'.
        unfold got. rewrite firstn_nonpositive by exact Hr0.
        rewrite write_at_nil. cbn [delivered recv_call].
        rewrite Z.eqb_refl. cbn [app List.length].
        split; [lia | split; [lia |]].
        symmetry. apply firstn_skipn. }
      destruct (Z.eqb_spec r (-1)) as [Hfail | Hok].
      * exists [recv_call P (sockfd this) len ndone r e got].
        destruct (would_block P e); inversion Hrun; subst res w'.
        -- split; [reflexivity |]. apply Hstop. lia.
        -- split; [reflexivity |]. intros n buf' Hn. discriminate Hn.
      * destruct (Z.eqb_spec r 0) as [Hzero | Hpos].
        -- exists [recv_call P (sockfd this) len ndone r e got].
           inversion Hrun; subst res w'.
           split; [reflexivity |]. apply Hstop. lia.
        -- assert (Hlen_got : List.length got = Z.to_nat r).
           { unfold got. apply firstn_length_le. lia. }
           pose proof (overwrite_middle buf_ got (Z.to_nat ndone)
                         ltac:(lia)) as Hover.
           cbv zeta in Hover. rewrite <- write_at_spec in Hover by lia.
           destruct Hover as (Hsame_len & Hfront & Hback).
           rewrite to_size_t_id in Hrun by (unfold is_size_t in *; lia).
           apply IH in Hrun; [| lia | lia].
           destruct Hrun as (evs & Htrace & Hres).
           cbn [trace record] in Htrace.
           exists (recv_call P (sockfd this) len ndone r e got :: evs).
           split; [rewrite Htrace, <- app_assoc; reflexivity |].
           intros n buf' Hn.
           destruct (Hres n buf' Hn) as (Hcount & Hle & Hbuf).
           cbn [delivered recv_call]. rewrite Z.eqb_refl.
           rewrite length_app.
           split; [lia | split; [exact Hle |]].
           rewrite Hbuf.
           replace (Z.to_nat (ndone + r))
             with (Z.to_nat ndone + List.length got)%nat by lia.
           rewrite Hfront, Hback by lia.
           rewrite <- !app_assoc. reflexivity.
    + rewrite RecvAll_loop_exit in Hrun by exact Hge.
      inversion Hrun; subst. exists []. split; [symmetry; apply app_nil_r |].
      intros n buf' Hn. inversion Hn; subst n buf'. cbn [delivered List.length app].
      split; [lia | split; [lia |]].
      symmetry. apply firstn_skipn.
Qed.

End RecvAllBuffer.

(** X9.  When [RecvAll] returns [n] and a buffer, the buffer holds the [n]
    bytes the [recv]s delivered, in the order they came, from its start on;
    the rest of the buffer is as it was and its length has not changed.  The
    buffer must have room for [len] bytes, and [recv] must hand over the
    bytes it reports. *)
Theorem RecvAll_fills_a_prefix :
  forall (P : platform) (os : OS) (fuel : nat) (this : TCPSocket)
         (buf_ buf' : list byte) (len n : Z) (w w' : world),
    is_size_t len ->
    len <= Z.of_nat (List.length buf_) ->
    recv_contract os ->
    recv_data_contract os ->
    TCPSocket_RecvAll P os fuel this buf_ len w = (Done (n, buf'), w') ->
    exists evs,
      trace w' = trace w ++ evs
      /\ Z.of_nat (List.length (delivered (sockfd this) evs)) = n
      /\ buf' = delivered (sockfd this) evs ++ skipn (Z.to_nat n) buf_
      /\ List.length buf' = List.length buf_.
Proof.
  intros P os fuel this buf_ buf' len n w w' Hlen Hroom Hcontract Hdata Hrun.
  unfold TCPSocket_RecvAll in Hrun.
  destruct (RecvAll_loop_buffer P os this len Hlen fuel Hcontract Hdata
              buf_ 0 w w' (Done (n, buf'))
              ltac:(unfold is_size_t in Hlen; lia) Hroom Hrun)
    as (evs & Htrace & Hres).
  destruct (Hres n buf' eq_refl) as (Hcount & Hle & Hbuf).
  cbn [Z.to_nat firstn app] in Hbuf.
  exists evs. split; [exact Htrace | split; [lia | split; [exact Hbuf |]]].
  rewrite Hbuf, length_app, length_skipn. lia.
Qed.

Lemma machine_recv_contract (busy : Z) : recv_contract (machine busy 2).
Proof.
  intros w fd n flags Hn.
  cbn [machine os_recv fst snd]. rewrite length_firstn. lia.
Qed.

Lemma machine_recv_data_contract (busy : Z) : recv_data_contract (machine busy 2).
Proof.
  intros w fd n flags Hn. cbn [machine os_recv fst snd]. lia.
Qed.

Lemma RecvAll_fills_a_prefix_witness :
  exists evs,
    trace (snd (TCPSocket_RecvAll linux (machine 0 2) 10 (TCPSocket_of 3)
                                  (repeat xff 8) 8 fresh_world))
    = trace fresh_world ++ evs
    /\ Z.of_nat (List.length (delivered (sockfd (TCPSocket_of 3)) evs)) = 5
    /\ hello ++ [xff; xff; xff]
       = delivered (sockfd (TCPSocket_of 3)) evs ++ skipn (Z.to_nat 5) (repeat xff 8)
    /\ List.length (hello ++ [xff; xff; xff]) = List.length (repeat xff 8).
Proof.
  apply (RecvAll_fills_a_prefix linux (machine 0 2) 10 (TCPSocket_of 3)
                                (repeat xff 8) (hello ++ [xff; xff; xff]) 8 5
                                fresh_world).
  - unfold is_size_t, SIZE_MAX. lia.
  - cbn. lia.
  - apply machine_recv_contract.
  - apply machine_recv_data_contract.
  - reflexivity.
Defined.

(** ** [SelectHelper::Select]: what it asks for and what it returns *)

Lemma fill_from_spec (fds : list Z) :
  Forall (fun x => 0 <= x) fds ->
  forall (s : fd_set) (fd : Z),
    Z.testbit (fold_left (fun s fd => FD_SET fd s) fds s) fd
    = Z.testbit s fd || existsb (fun x => x =? fd) fds.
Proof.
  induction fds as [| x fds IH]; intros Hall s fd; cbn [fold_left existsb].
  - rewrite orb_false_r. reflexivity.
  - inversion Hall as [| ? ? Hx Hrest]; subst.
    rewrite (IH Hrest). unfold FD_SET.
    rewrite Z.setbit_eqb by exact Hx.
    destruct (x =? fd), (Z.testbit s fd); reflexivity.
Qed.

(** A descriptor is in the set built from a vector exactly when it is in the
    vector. *)
Lemma fill_set_spec (fds : list Z) (fd : Z) :
  Forall fits_fd_set fds ->
  FD_ISSET fd (fill_set fds) = true <-> In fd fds.
Proof.
  intros Hall. unfold FD_ISSET, fill_set.
  rewrite fill_from_spec.
  - unfold FD_ZERO. rewrite Z.bits_0. cbn [orb]. rewrite existsb_exists. split.
    + intros (x & Hin & Heq). apply Z.eqb_eq in Heq. subst x. exact Hin.
    + intros Hin. exists fd. split; [exact Hin | apply Z.eqb_refl].
  - apply (Forall_impl _ (P := fits_fd_set)); [| exact Hall].
    intros x Hx. unfold fits_fd_set in Hx. lia.
Qed.

(** X10.  The three sets [Select] hands to [select] hold exactly the
    descriptors registered with [WatchRead], [WatchWrite] and
    [WatchException]: every registered descriptor is in its set, nothing
    else is, and a descriptor registered twice is in once.  The descriptors
    must be ones [FD_SET] is defined for. *)
Theorem Select_passes_registered_sets :
  forall (P : platform) (os : OS) (this : SelectHelper) (timeout : Z)
         (w : world),
    Forall fits_fd_set (read_fds this) ->
    Forall fits_fd_set (write_fds this) ->
    Forall fits_fd_set (except_fds this) ->
    exists nfds rd wr ex tm r e rd' wr' ex',
      snd (SelectHelper_Select P os this timeout w)
      = record w e (EvSelect nfds rd wr ex tm r e rd' wr' ex')
      /\ (forall fd, FD_ISSET fd rd = true <-> In fd (read_fds this))
      /\ (forall fd, FD_ISSET fd wr = true <-> In fd (write_fds this))
      /\ (forall fd, FD_ISSET fd ex = true <-> In fd (except_fds this)).
Proof.
  intros P os this timeout w Hrd Hwr Hex.
  destruct (Select_trace P os this timeout w) as (r & e & sets & Htrace).
  unfold select_call in Htrace.
  do 10 eexists. split; [exact Htrace |].
  split; [| split]; intros fd; apply fill_set_spec; assumption.
Qed.

Lemma Select_passes_registered_sets_witness :
  exists nfds rd wr ex tm r e rd' wr' ex',
    snd (SelectHelper_Select linux (machine 0 2)
           (run_ops (SelectHelper_ctor
                       {| maxfd := 77; read_set := 5; write_set := 6;
                          except_set := 7;
                          read_fds := []; write_fds := []; except_fds := [] |})
                    [OpWatchRead 4; OpWatchRead 9; OpWatchRead 4; OpWatchWrite 6])
           0 fresh_world)
    = record fresh_world e (EvSelect nfds rd wr ex tm r e rd' wr' ex')
    /\ (forall fd, FD_ISSET fd rd = true <-> In fd [4; 9; 4])
    /\ (forall fd, FD_ISSET fd wr = true <-> In fd [6])
    /\ (forall fd, FD_ISSET fd ex = true <-> In fd []).
Proof.
  apply (Select_passes_registered_sets linux (machine 0 2)
           (run_ops (SelectHelper_ctor
                       {| maxfd := 77; read_set := 5; write_set := 6;
                          except_set := 7;
                          read_fds := []; write_fds := []; except_fds := [] |})
                    [OpWatchRead 4; OpWatchRead 9; OpWatchRead 4; OpWatchWrite 6])
           0 fresh_world).
  - cbn. unfold fits_fd_set, FD_SETSIZE. repeat constructor; lia.
  - cbn. unfold fits_fd_set, FD_SETSIZE. repeat constructor; lia.
  - cbn. constructor.
Defined.

(** After any sequence of calls [maxfd] is what folding the maximum over
    the registrations since the last [Clear] gives, starting from 0. *)
Lemma maxfd_is_fold (storage : SelectHelper) (ops : list watch_op) :
  maxfd (run_ops (SelectHelper_ctor storage) ops)
  = fold_left Z.max (fds_of (since_last_clear ops)) 0.
Proof.
  destruct (split_at_last_clear ops) as (earlier & Hsplit & Hends & Hno).
  destruct (run_ops_cleared storage earlier Hends) as (_ & _ & _ & Hm0).
  destruct (run_ops_no_clear (since_last_clear ops) Hno
              (run_ops (SelectHelper_ctor storage) earlier))
    as (_ & _ & _ & Hm).
  rewrite Hm0 in Hm. rewrite <- Hm.
  rewrite Hsplit at 1. unfold run_ops. rewrite fold_left_app. reflexivity.
Qed.

(** X11.  After any sequence of registrations and [Clear]s with
    descriptors [FD_SET] is defined for (0 to [FD_SETSIZE - 1]), the first
    argument [Select] passes to [select] is at least 1 and at most
    [FD_SETSIZE], exceeds every descriptor registered since the last
    [Clear], and is the least such number: it is 1 or one more than a
    registered descriptor. *)
Theorem Select_nfds_covers_registered :
  forall (P : platform) (os : OS) (storage : SelectHelper)
         (ops : list watch_op) (timeout : Z) (w : world),
    Forall fits_fd_set (fds_of ops) ->
    exists nfds rd wr ex tm r e rd' wr' ex',
      snd (SelectHelper_Select P os (run_ops (SelectHelper_ctor storage) ops)
                               timeout w)
      = record w e (EvSelect nfds rd wr ex tm r e rd' wr' ex')
      /\ 1 <= nfds <= FD_SETSIZE
      /\ Forall (fun fd => fd < nfds) (fds_of (since_last_clear ops))
      /\ (nfds = 1 \/ In (nfds - 1) (fds_of (since_last_clear ops))).
Proof.
  intros P os storage ops timeout w Hrange.
  destruct (Select_trace P os (run_ops (SelectHelper_ctor storage) ops)
                         timeout w) as (r & e & sets & Htrace).
  unfold select_call in Htrace. rewrite maxfd_is_fold in Htrace.
  destruct (fold_max_spec (fds_of (since_last_clear ops)) 0)
    as (Hle & Hall & Hin).
  set (m := fold_left Z.max (fds_of (since_last_clear ops)) 0) in *.
  assert (Hrecent : Forall fits_fd_set (fds_of (since_last_clear ops))).
  { destruct (split_at_last_clear ops) as (earlier & Hsplit & _ & _).
    rewrite Hsplit, fds_of_app in Hrange.
    apply Forall_app in Hrange. apply Hrange. }
  assert (Hm : m < FD_SETSIZE).
  { destruct Hin as [-> | Hin]; [unfold FD_SETSIZE; lia |].
    rewrite Forall_forall in Hrecent. apply (Hrecent m Hin). }
  unfold FD_SETSIZE in *.
  rewrite to_int_id in Htrace
    by (unfold is_int, INT_MIN, INT_MAX in *; lia).
  do 10 eexists. split; [exact Htrace |].
  split; [lia | split].
  - apply (Forall_impl _ (P := fun fd => fd <= m)); [| exact Hall].
    intros fd Hfd. lia.
  - destruct Hin as [Hzero | Hin].
    + left. lia.
    + right. replace (m + 1 - 1) with m by lia. exact Hin.
Qed.

Lemma Select_nfds_covers_registered_witness :
  exists nfds rd wr ex tm r e rd' wr' ex',
    snd (SelectHelper_Select linux (machine 0 2)
           (run_ops (SelectHelper_ctor
                       {| maxfd := 77; read_set := 5; write_set := 6;
                          except_set := 7;
                          read_fds := []; write_fds := []; except_fds := [] |})
                    [OpWatchRead 9; OpClear; OpWatchRead 4; OpWatchWrite 6])
           0 fresh_world)
    = record fresh_world e (EvSelect nfds rd wr ex tm r e rd' wr' ex')
    /\ 1 <= nfds <= FD_SETSIZE
    /\ Forall (fun fd => fd < nfds)
              (fds_of (since_last_clear
                         [OpWatchRead 9; OpClear; OpWatchRead 4; OpWatchWrite 6]))
    /\ (nfds = 1
        \/ In (nfds - 1)
              (fds_of (since_last_clear
                         [OpWatchRead 9; OpClear; OpWatchRead 4; OpWatchWrite 6]))).
Proof.
  apply (Select_nfds_covers_registered linux (machine 0 2)).
  cbn. unfold fits_fd_set, FD_SETSIZE. repeat constructor; lia.
Defined.

(** X12.  [Select] aborts exactly when [select] returns -1, with a message
    that carries the platform's text for [errno] (and no "Socket" prefix).
    Otherwise it returns the count [select] returned, and the object then
    answers [CheckRead], [CheckWrite] and [CheckExcept] from the sets
    [select] left behind.  The registrations are kept: a [Select] that
    follows hands [select] the same first argument and the same three
    sets. *)
Theorem Select_outcome :
  forall (P : platform) (os : OS) (this : SelectHelper) (timeout : Z)
         (w : world) (r e : Z) (rd' wr' ex' : fd_set),
    os_select os w (to_int (maxfd this + 1))
              (fill_set (read_fds this)) (fill_set (write_fds this))
              (fill_set (except_fds this))
              (if timeout =? 0 then None
               else Some {| tv_sec := Z.quot timeout 1000;
                            tv_usec := Z.rem timeout 1000 * 1000 |})
    = (r, e, (rd', wr', ex')) ->
    (r = -1 ->
     fst (SelectHelper_Select P os this timeout w)
     = Abort ("Select Error: " ++ strerror P e))
    /\ (r <> -1 ->
        exists after,
          fst (SelectHelper_Select P os this timeout w) = Done (r, after)
          /\ (forall fd,
                 SelectHelper_CheckRead after fd = FD_ISSET fd rd'
                 /\ SelectHelper_CheckWrite after fd = FD_ISSET fd wr'
                 /\ SelectHelper_CheckExcept after fd = FD_ISSET fd ex')
          /\ forall timeout' w1,
              exists tm r1 e1 sets,
                snd (SelectHelper_Select P os after timeout' w1)
                = record w1 e1 (select_call this tm r1 e1 sets)).
Proof.
  intros P os this timeout w r e rd' wr' ex' Hos.
  assert (Hrun : SelectHelper_Select P os this timeout w
                 = (if r =? -1
                    then Abort ("Select Error: " ++ strerror P e)
                    else Done (r, {| maxfd := maxfd this;
                                     read_set := rd'; write_set := wr';
                                     except_set := ex';
                                     read_fds := read_fds this;
                                     write_fds := write_fds this;
                                     except_fds := except_fds this |}),
                    record w e
                      (select_call this
                         (if timeout =? 0 then None
                          else Some {| tv_sec := Z.quot timeout 1000;
                                       tv_usec := Z.rem timeout 1000 * 1000 |})
                         r e (rd', wr', ex')))).
  { unfold SelectHelper_Select, bind, sys_select, select_call.
    destruct (timeout =? 0); rewrite Hos; destruct (r =? -1); reflexivity. }
  rewrite Hrun. cbn [fst]. split.
  - intros ->. reflexivity.
  - intros Hr. settle (r =? -1) false.
    eexists. split; [reflexivity | split].
    + intros fd. repeat split.
    + intros timeout' w1.
      destruct (Select_trace P os
                  {| maxfd := maxfd this;
                     read_set := rd'; write_set := wr'; except_set := ex';
                     read_fds := read_fds this;
                     write_fds := write_fds this;
                     except_fds := except_fds this |} timeout' w1)
        as (r1 & e1 & sets & Htrace).
      eexists. exists r1, e1, sets. exact Htrace.
Qed.

Lemma Select_outcome_witness :
  exists after,
    fst (SelectHelper_Select linux (machine 0 2)
           (SelectHelper_WatchRead
              (SelectHelper_ctor
                 {| maxfd := 77; read_set := 5; write_set := 6; except_set := 7;
                    read_fds := []; write_fds := []; except_fds := [] |}) 4)
           1500 fresh_world)
    = Done (0, after)
    /\ (forall fd,
           SelectHelper_CheckRead after fd = FD_ISSET fd 0
           /\ SelectHelper_CheckWrite after fd = FD_ISSET fd 0
           /\ SelectHelper_CheckExcept after fd = FD_ISSET fd 0)
    /\ forall timeout' w1,
        exists tm r1 e1 sets,
          snd (SelectHelper_Select linux (machine 0 2) after timeout' w1)
          = record w1 e1
              (select_call
                 (SelectHelper_WatchRead
                    (SelectHelper_ctor
                       {| maxfd := 77; read_set := 5; write_set := 6;
                          except_set := 7;
                          read_fds := []; write_fds := []; except_fds := [] |}) 4)
                 tm r1 e1 sets).
Proof.
  apply (proj2 (Select_outcome linux (machine 0 2)
                  (SelectHelper_WatchRead
                     (SelectHelper_ctor
                        {| maxfd := 77; read_set := 5; write_set := 6;
                           except_set := 7;
                           read_fds := []; write_fds := []; except_fds := [] |}) 4)
                  1500 fresh_world 0 0 0 0 0 eq_refl)).
  lia.
Defined.

(** ** [Socket::SetNonBlock] *)

Lemma abind_Done {A B} (c : MA A) (k : A -> MA B) (w w' : aux_world) (a : A) :
  c w = (Done a, w') -> abind c k w = k a w'.
Proof. unfold abind. intros ->. reflexivity. Qed.

Lemma sys_fcntl_run (aos : aux_OS) (fd cmd arg : Z) (w : aux_world) (r e : Z) :
  os_fcntl aos w fd cmd arg = (r, e) ->
  sys_fcntl aos fd cmd arg w = (Done r, arecord w e (EvFcntl fd cmd arg r e)).
Proof. intros H. unfold sys_fcntl. rewrite H. reflexivity. Qed.

Lemma lift_Socket_Error (P : platform) (msg : string) (w : aux_world) :
  lift (Socket_Error P msg) w
  = (Abort ("Socket " ++ msg ++ " Error:" ++ strerror P (errno (process w))), w).
Proof. destruct w as [p t]. reflexivity. Qed.

(** Bit by bit: the bits of [O_NONBLOCK] become what was asked for, every
    other bit stays. *)
Lemma nonblock_flag_bits (F : fcntl_constants) (non_block : bool) (flag n : Z) :
  0 <= n ->
  Z.testbit (nonblock_flag F non_block flag) n
  = if Z.testbit (O_NONBLOCK F) n then non_block else Z.testbit flag n.
Proof.
  intros Hn. unfold nonblock_flag. destruct non_block.
  - rewrite Z.lor_spec.
    destruct (Z.testbit (O_NONBLOCK F) n); [apply orb_true_r | apply orb_false_r].
  - rewrite Z.land_spec, Z.lnot_spec by exact Hn.
    destruct (Z.testbit (O_NONBLOCK F) n); [apply andb_false_r | apply andb_true_r].
Qed.

(** X13.  [SetNonBlock] reads the flag word with [F_GETFL] and, when that
    fails, aborts without issuing [F_SETFL].  Otherwise it writes back, with
    one [F_SETFL], the word it read with the bits of [O_NONBLOCK] set (or
    cleared) and every other bit unchanged, and aborts when that call
    returns -1.  Asking twice for the same mode writes the same word as
    asking once. *)
Theorem SetNonBlock_changes_one_flag :
  forall (P : platform) (F : fcntl_constants) (aos : aux_OS) (this : Socket)
         (non_block : bool) (w : aux_world) (flag e1 : Z),
    os_fcntl aos w (sockfd this) (F_GETFL F) 0 = (flag, e1) ->
    let w1 := arecord w e1 (EvFcntl (sockfd this) (F_GETFL F) 0 flag e1) in
    (flag = -1 ->
     Socket_SetNonBlock P F aos this non_block w
     = (Abort ("Socket SetNonBlock-1 Error:" ++ strerror P e1), w1))
    /\ (flag <> -1 ->
        forall r e2,
          os_fcntl aos w1 (sockfd this) (F_SETFL F) (nonblock_flag F non_block flag)
          = (r, e2) ->
          Socket_SetNonBlock P F aos this non_block w
          = (if r =? -1
             then Abort ("Socket SetNonBlock-2 Error:" ++ strerror P e2)
             else Done tt,
             arecord w1 e2 (EvFcntl (sockfd this) (F_SETFL F)
                                    (nonblock_flag F non_block flag) r e2)))
    /\ (forall n,
           0 <= n ->
           Z.testbit (nonblock_flag F non_block flag) n
           = if Z.testbit (O_NONBLOCK F) n then non_block else Z.testbit flag n)
    /\ nonblock_flag F non_block (nonblock_flag F non_block flag)
       = nonblock_flag F non_block flag.
Proof.
  intros P F aos this non_block w flag e1 Hget w1.
  split; [| split; [| split]].
  - intros Hfail. unfold Socket_SetNonBlock.
    rewrite (abind_Done _ _ _ _ _ (sys_fcntl_run aos _ _ _ w flag e1 Hget)).
    fold w1. settle (flag =? -1) true.
    unfold abind at 1. rewrite lift_Socket_Error. subst flag. reflexivity.
  - intros Hok r e2 Hset. unfold Socket_SetNonBlock.
    rewrite (abind_Done _ _ _ _ _ (sys_fcntl_run aos _ _ _ w flag e1 Hget)).
    fold w1. settle (flag =? -1) false.
    unfold abind at 1. cbn [aret].
    rewrite (abind_Done _ _ _ _ _ (sys_fcntl_run aos _ _ _ w1 r e2 Hset)).
    destruct (r =? -1); [| reflexivity].
    rewrite lift_Socket_Error. reflexivity.
  - intros n Hn. apply nonblock_flag_bits. exact Hn.
  - apply Z.bits_inj'. intros n Hn.
    rewrite !nonblock_flag_bits by exact Hn.
    destruct (Z.testbit (O_NONBLOCK F) n); reflexivity.
Qed.

Lemma SetNonBlock_changes_one_flag_witness :
  Socket_SetNonBlock linux linux_fcntl aux_machine (TCPSocket_of 3) true
                     fresh_aux_world
  = (if 0 =? -1
     then Abort ("Socket SetNonBlock-2 Error:" ++ strerror linux 0)
     else Done tt,
     arecord (arecord fresh_aux_world 0
                      (EvFcntl (sockfd (TCPSocket_of 3)) (F_GETFL linux_fcntl) 0 2 0))
             0 (EvFcntl (sockfd (TCPSocket_of 3)) (F_SETFL linux_fcntl)
                        (nonblock_flag linux_fcntl true 2) 0 0)).
Proof.
  apply (proj1 (proj2 (SetNonBlock_changes_one_flag
                         linux linux_fcntl aux_machine (TCPSocket_of 3) true
                         fresh_aux_world 2 0 eq_refl))).
  - lia.
  - reflexivity.
Defined.

(** ** [TCPSocket::Connect] *)

(** X14.  [Connect] issues one [connect] and never aborts: whatever
    [connect] returns and whatever [errno] says, the caller gets a boolean,
    true exactly when [connect] returned 0; [errno] is left as [connect] set
    it. *)
Theorem Connect_never_aborts :
  forall (aos : aux_OS) (this : TCPSocket) (a : SockAddr) (w : aux_world)
         (r e : Z),
    os_connect aos w (sockfd this) (addr a) = (r, e) ->
    TCPSocket_Connect aos this a w
    = (Done (r =? 0),
       arecord w e (EvConnect (sockfd this) (addr a) r e))
    /\ errno (process (snd (TCPSocket_Connect aos this a w))) = e.
Proof.
  intros aos this a w r e Hos.
  unfold TCPSocket_Connect, abind, sys_connect. rewrite Hos.
  split; reflexivity.
Qed.

Lemma Connect_never_aborts_witness :
  TCPSocket_Connect aux_machine (TCPSocket_of 3)
                    {| addr := fill_sockaddr linux (ipv4_hostent x7f x00 x00 x01) 9091 |}
                    fresh_aux_world
  = (Done (-1 =? 0),
     arecord fresh_aux_world 111
             (EvConnect (sockfd (TCPSocket_of 3))
                        (addr {| addr := fill_sockaddr linux
                                           (ipv4_hostent x7f x00 x00 x01) 9091 |})
                        (-1) 111))
  /\ errno (process (snd (TCPSocket_Connect aux_machine (TCPSocket_of 3)
                            {| addr := fill_sockaddr linux
                                         (ipv4_hostent x7f x00 x00 x01) 9091 |}
                            fresh_aux_world))) = 111.
Proof.
  apply (Connect_never_aborts aux_machine (TCPSocket_of 3)).
  reflexivity.
Defined.

(** ** [SockAddr::GetHostName] *)

Lemma c_str_no_nul (s : list byte) : Forall (fun b => b <> x00) (c_str s).
Proof.
  induction s as [| b s IH]; cbn [c_str]; [constructor |].
  destruct (Byte.eqb b x00) eqn:Hb; [constructor |].
  constructor; [apply eqb_false; exact Hb | exact IH].
Qed.

Lemma c_str_length (s : list byte) : (List.length (c_str s) <= List.length s)%nat.
Proof.
  induction s as [| b s IH]; cbn [c_str]; [lia |].
  destruct (Byte.eqb b x00); cbn [List.length]; lia.
Qed.

Lemma c_str_terminated (name rest : list byte) :
  Forall (fun b => b <> x00) name ->
  c_str (name ++ x00 :: rest) = name.
Proof.
  induction name as [| b name IH]; intros Hname; [reflexivity |].
  inversion Hname as [| ? ? Hb Hrest]; subst.
  cbn [app c_str].
  destruct (Byte.eqb b x00) eqn:Heq.
  - apply byte_dec_bl in Heq. contradiction.
  - rewrite (IH Hrest). reflexivity.
Qed.

(** X15.  [GetHostName] asks for at most 256 bytes, once.  When
    [gethostname] returns -1 it aborts.  When [gethostname] stores a name of
    fewer than 256 bytes followed by a NUL, the result is that name, whatever
    follows the NUL.  In every case the result has no NUL in it and at most
    256 bytes. *)
Theorem GetHostName_returns_the_name :
  forall (aos : aux_OS) (w : aux_world) (r e : Z) (stored : list byte),
    os_gethostname aos w 256 = (r, e, stored) ->
    (r = -1 ->
     fst (SockAddr_GetHostName aos w) = Abort "fail to get host name")
    /\ (forall name rest,
           r <> -1 ->
           stored = name ++ x00 :: rest ->
           Forall (fun b => b <> x00) name ->
           (List.length name < 256)%nat ->
           fst (SockAddr_GetHostName aos w) = Done name)
    /\ (forall s,
           fst (SockAddr_GetHostName aos w) = Done s ->
           Forall (fun b => b <> x00) s /\ (List.length s <= 256)%nat)
    /\ aux_trace (snd (SockAddr_GetHostName aos w))
       = aux_trace w ++ [EvGetHostName 256 r e (firstn 256 stored)].
Proof.
  intros aos w r e stored Hos.
  assert (Hrun : SockAddr_GetHostName aos w
                 = (if r =? -1
                    then Abort "fail to get host name"
                    else Done (c_str (write_at (repeat x00 256) 0
                                               (firstn 256 stored))),
                    arecord w e (EvGetHostName 256 r e (firstn 256 stored)))).
  { unfold SockAddr_GetHostName, abind at 1, sys_gethostname. rewrite Hos.
    change (Z.to_nat 256) with 256%nat.
    unfold abind, lift, utils_Check.
    destruct (r =? -1); reflexivity. }
  rewrite Hrun. cbn [fst snd].
  assert (Hbuf : write_at (repeat x00 256) 0 (firstn 256 stored)
                 = firstn 256 stored
                   ++ skipn (List.length (firstn 256 stored)) (repeat x00 256)).
  { rewrite write_at_spec by lia. reflexivity. }
  split; [| split; [| split]].
  - intros ->. reflexivity.
  - intros name rest Hr Hstored Hname Hshort.
    settle (r =? -1) false. f_equal.
    rewrite Hbuf, Hstored, firstn_app.
    rewrite (firstn_all2 (n := 256) name) by lia.
    destruct (256 - List.length name)%nat as [| k] eqn:Hk; [lia |].
    cbn [firstn]. rewrite <- app_assoc. cbn [app].
    apply c_str_terminated. exact Hname.
  - intros s Hs. destruct (r =? -1); [discriminate Hs |].
    injection Hs as Hs. subst s. split; [apply c_str_no_nul |].
    pose proof (c_str_length (write_at (repeat x00 256) 0 (firstn 256 stored)))
      as Hshorter.
    assert (Hsize : List.length (write_at (repeat x00 256) 0 (firstn 256 stored))
                    = 256%nat).
    { rewrite Hbuf, length_app, length_skipn, repeat_length, length_firstn. lia. }
    rewrite Hsize in Hshorter. exact Hshorter.
  - cbn [arecord aux_trace]. reflexivity.
Qed.

Lemma GetHostName_returns_the_name_witness :
  fst (SockAddr_GetHostName aux_machine fresh_aux_world)
  = Done [x6e; x6f; x64; x65; x37].
Proof.
  apply (proj1 (proj2 (GetHostName_returns_the_name
                         aux_machine fresh_aux_world 0 0
                         [x6e; x6f; x64; x65; x37; x00] eq_refl))
           [x6e; x6f; x64; x65; x37] []).
  - lia.
  - reflexivity.
  - repeat constructor; discriminate.
  - cbn. lia.
Defined.

(** ** [TCPSocket::RecvAll] always ends *)

(** X16.  [RecvAll] cannot spin: as long as [recv] returns -1, 0 or a count
    within the request, [len + 1] turns are always enough for it to return
    or abort, because a [recv] that delivers nothing ends the loop. *)
Theorem RecvAll_always_ends :
  forall (P : platform) (os : OS) (fuel : nat) (this : TCPSocket)
         (buf_ : list byte) (len : Z) (w : world),
    is_size_t len ->
    recv_contract os ->
    (Z.to_nat len < fuel)%nat ->
    fst (TCPSocket_RecvAll P os fuel this buf_ len w) <> OutOfFuel.
Proof.
  intros P os fuel this buf_ len w Hlen Hcontract Hfuel.
  unfold TCPSocket_RecvAll.
  apply RecvAll_loop_ends; try assumption.
  - unfold is_size_t in Hlen. lia.
  - rewrite Z.sub_0_r. exact Hfuel.
Qed.

Lemma RecvAll_always_ends_witness :
  fst (TCPSocket_RecvAll linux (machine 0 2) 9 (TCPSocket_of 3) (repeat xff 8) 8
                         fresh_world) <> OutOfFuel.
Proof.
  apply (RecvAll_always_ends linux (machine 0 2) 9 (TCPSocket_of 3)
                             (repeat xff 8) 8 fresh_world).
  - unfold is_size_t, SIZE_MAX. lia.
  - apply machine_recv_contract.
  - vm_compute. lia.
Defined.
